(** * png2gba: a shallow embedding of [png2gba.c] and its verified properties

    The program turns a decoded PNG image into a C header for the Game Boy
    Advance: a pixel array (15-bit colours or palette indices) and, in
    palette mode, a colour table.  This file embeds the pixel traversal
    ([next_byte]), the colour reduction, the palette ([insert_palette]),
    the colour-key parser ([hex24_to_15]) and the emitting loops of
    [png2gba] and [main], and proves properties of them.

    Conventions.
    - [int] values are integers of [Z]. Signed overflow is undefined in C and
      is not modelled: on the runs considered the counters stay between -8
      and the larger of width and height, plus 8.
    - [unsigned char] and [unsigned short] values are integers of [Z] reduced
      with [to_uchar] and [to_ushort] wherever the C code stores into such a
      variable.
    - [exit(-1)] is the outcome [Exit e], [e] naming the message printed;
      reading or writing outside an array is the outcome [Undefined].
    - A [FILE *] opened for writing is the list of the [fprintf] calls made
      on it, in order ([out_item]); [render] gives the text they produce. *)

From Stdlib Require Import ZArith Lia String Ascii.
From stdpp Require Import base numbers list strings pretty.

Local Open Scope Z_scope.

(** ** Machine integers and constants *)

Definition to_uchar (x : Z) : Z := x mod 256.
Definition to_ushort (x : Z) : Z := x mod 65536.

(** [#define PALETTE_MAX 256] and [#define TILE_SIZE 8]. *)
Definition PALETTE_MAX : Z := 256.
Definition TILE_SIZE : Z := 8.

(** ** Outcomes of a call: normal return, [exit(-1)], undefined behaviour,
    or a loop bound of the model reached. *)

Inductive error : Type :=
  | NoInputSpecified      (* "No Input Specified" *)
  | PaletteNot16Or256     (* "Palette must be 16 or 256 colors" *)
  | NameWithoutPng        (* "Error: File name should end in .png!" *)
  | TooManyColors.        (* "Error: Too many colors in image for the palette!" *)

Inductive outcome (A : Type) : Type :=
  | Ret (a : A)
  | Exit (e : error)
  | Undefined
  | OutOfFuel.

Arguments Ret {A} a.
Arguments Exit {A} e.
Arguments Undefined {A}.
Arguments OutOfFuel {A}.

Definition bind {A B : Type} (m : outcome A) (k : A -> outcome B) : outcome B :=
  match m with
  | Ret a => k a
  | Exit e => Exit e
  | Undefined => Undefined
  | OutOfFuel => OutOfFuel
  end.

Notation "'let*' x ':=' m 'in' k" := (bind m (fun x => k))
  (at level 10, x pattern, m at level 100, k at level 200).

Definition of_option {A : Type} (o : option A) : outcome A :=
  match o with
  | Some a => Ret a
  | None => Undefined
  end.

(** ** Data *)

(** [struct Arguments]. A [char *] that may be [NULL] is an [option]. *)
Record Arguments : Type := {
  palette : Z;
  tileize : Z;
  colorkey : string;
  output_file_name : option string;
  input_file_name : option string
}.

(** [struct Image]; [rows] holds, for each row, the bytes of that row. *)
Record Image : Type := {
  width : Z;
  height : Z;
  channels : Z;
  color_type : Z;
  bit_depth : Z;
  rows : list (list Z)
}.

(** [struct Palette]: [colors] is the array of [PALETTE_MAX] entries,
    [used] and [max] are [unsigned char]. *)
Record Palette : Type := {
  colors : list Z;
  used : Z;
  max : Z
}.

(** ** Colour reduction *)

(** Lines 261-264 of [png2gba]:
    [unsigned short color = (blue >> 3) << 10;
     color += (green >> 3) << 5;
     color += (red >> 3);] *)
Definition quantize (red green blue : Z) : Z :=
  let color := to_ushort ((blue ≫ 3) ≪ 10) in
  let color := to_ushort (color + ((green ≫ 3) ≪ 5)) in
  let color := to_ushort (color + (red ≫ 3)) in
  color.

(** ** The colour key *)

(** [s[i]] for a C string: the bytes of [s], then the terminating NUL;
    anything further is outside the array. *)
Definition char_at (s : string) (i : nat) : option ascii :=
  match String.get i s with
  | Some a => Some a
  | None => if (i =? String.length s)%nat then Some Ascii.zero else None
  end.

(** Value of a character as a digit in base 16, if it is one. *)
Definition hex_digit (a : ascii) : option Z :=
  let n := Z.of_N (N_of_ascii a) in
  if (48 <=? n) && (n <=? 57) then Some (n - 48)
  else if (97 <=? n) && (n <=? 102) then Some (n - 87)
  else if (65 <=? n) && (n <=? 70) then Some (n - 55)
  else None.

(** [isspace] in the C locale. *)
Definition is_space (a : ascii) : bool :=
  let n := Z.of_N (N_of_ascii a) in
  (n =? 32) || ((9 <=? n) && (n <=? 13)).

(** The digits of [strtol]: the longest prefix of base-16 digits of [s],
    accumulated from [acc]. *)
Fixpoint strtol_digits (s : list ascii) (acc : Z) : Z :=
  match s with
  | [] => acc
  | a :: s' =>
      match hex_digit a with
      | Some d => strtol_digits s' (16 * acc + d)
      | None => acc
      end
  end.

Fixpoint strtol_skip (s : list ascii) : list ascii :=
  match s with
  | a :: s' => if is_space a then strtol_skip s' else s
  | [] => []
  end.

(** [strtol(s, NULL, 16)] as [hex24_to_15] uses it, on buffers of two
    characters and a NUL: white space, an optional sign, digits.  (The
    optional [0x] prefix needs a third character to change the result.) *)
Definition strtol16 (s : list ascii) : Z :=
  match strtol_skip s with
  | a :: s' =>
      if Ascii.eqb a "-"%char then - strtol_digits s' 0
      else if Ascii.eqb a "+"%char then strtol_digits s' 0
      else strtol_digits (a :: s') 0
  | [] => 0
  end.

(** The bytes of a two-character buffer up to its first NUL. *)
Definition c_string2 (a b : ascii) : list ascii :=
  if Ascii.eqb a Ascii.zero then []
  else if Ascii.eqb b Ascii.zero then [a]
  else [a; b].

(** [hex24_to_15]: skip the first character, cut three pairs of characters,
    read each pair in base 16 and pack the three values. *)
Definition hex24_to_15 (hex24 : string) : outcome Z :=
  let* r0 := of_option (char_at hex24 1) in
  let* r1 := of_option (char_at hex24 2) in
  let* g0 := of_option (char_at hex24 3) in
  let* g1 := of_option (char_at hex24 4) in
  let* b0 := of_option (char_at hex24 5) in
  let* b1 := of_option (char_at hex24 6) in
  let r := strtol16 (c_string2 r0 r1) in
  let g := strtol16 (c_string2 g0 g1) in
  let b := strtol16 (c_string2 b0 b1) in
  let color := to_ushort ((b ≫ 3) ≪ 10) in
  let color := to_ushort (color + ((g ≫ 3) ≪ 5)) in
  let color := to_ushort (color + (r ≫ 3)) in
  Ret color.

(** A colour key of the form [#RRGGBB]. *)
Definition is_hex (a : ascii) : bool :=
  match hex_digit a with Some _ => true | None => false end.

Definition valid_colorkey (s : string) : bool :=
  match list_ascii_of_string s with
  | [h; r0; r1; g0; g1; b0; b1] =>
      Ascii.eqb h "#"%char && is_hex r0 && is_hex r1 && is_hex g0 && is_hex g1
      && is_hex b0 && is_hex b1
  | _ => false
  end.

(** ** The palette *)

(** The loop of [insert_palette]:
    [for (i = 0; i < palette->used; i++) if (palette->colors[i] == color) return i;]
    [n] counts the values the [unsigned char] counter [i] can still take;
    [None] is leaving the loop without a match. *)
Fixpoint palette_scan (n : nat) (color : Z) (p : Palette) (i : Z)
  : outcome (option Z) :=
  match n with
  | O => OutOfFuel
  | S n' =>
      if i <? used p then
        let* ci := of_option (colors p !! Z.to_nat i) in
        if ci =? color then Ret (Some i)
        else palette_scan n' color p (to_uchar (i + 1))
      else Ret None
  end.

(** [insert_palette]: the index of [color] and the palette after the call. *)
Definition insert_palette (color : Z) (p : Palette) : outcome (Z * Palette) :=
  let* found := palette_scan 257 color p 0 in
  match found with
  | Some i => Ret (i, p)
  | None =>
      if used p >=? max p - 1 then Exit TooManyColors
      else
        let used' := to_uchar (used p + 1) in
        let slot := used' - 1 in
        if (0 <=? slot) && (slot <? Z.of_nat (length (colors p))) then
          Ret (to_uchar (used' - 1),
               {| colors := <[Z.to_nat slot := color]> (colors p);
                  used := used';
                  max := max p |})
        else Undefined
  end.

(** The palette [main] builds: [memset(&palette, 0, sizeof(palette));
    palette.max = args.palette;] *)
Definition new_palette (arg_palette : Z) : Palette :=
  {| colors := replicate (Z.to_nat PALETTE_MAX) 0;
     used := 0;
     max := to_uchar arg_palette |}.

(** ** Traversal *)

(** The four [static int] variables of [next_byte]: [r], [c] (position in
    the image) and [tr], [tc] (position inside the current tile). They keep
    their values between calls, so every call takes and returns them. *)
Record Cursor : Type := {
  cur_r : Z;
  cur_c : Z;
  cur_tr : Z;
  cur_tc : Z
}.

(** Their initial values. *)
Definition cursor0 : Cursor :=
  {| cur_r := 0; cur_c := 0; cur_tr := 0; cur_tc := 0 |}.

(** [next_byte]. The returned pointer [&row[c * channels]] into row [r] is
    the pair [(r, c)]; [None] is [NULL]. The bytes behind the pointer are
    read by the caller ([read_pixel]). *)
Definition next_byte (image : Image) (tileize : Z) (s : Cursor)
  : option (Z * Z) * Cursor :=
  if cur_r s =? height image then (None, s)
  else
    let ptr := (cur_r s, cur_c s) in
    if tileize =? 0 then
      let c := cur_c s + 1 in
      if c >=? width image then
        (Some ptr, {| cur_r := cur_r s + 1; cur_c := 0;
                      cur_tr := cur_tr s; cur_tc := cur_tc s |})
      else
        (Some ptr, {| cur_r := cur_r s; cur_c := c;
                      cur_tr := cur_tr s; cur_tc := cur_tc s |})
    else
      let c := cur_c s + 1 in
      let tc := cur_tc s + 1 in
      if tc >=? 8 then
        let r := cur_r s + 1 in
        let tr := cur_tr s + 1 in
        let c := c - 8 in
        let tc := 0 in
        let '(r, tr, c) :=
          if tr >=? 8 then (r - 8, 0, c + 8) else (r, tr, c) in
        if c >=? width image then
          (Some ptr, {| cur_r := r + 8; cur_c := 0; cur_tr := 0; cur_tc := 0 |})
        else
          (Some ptr, {| cur_r := r; cur_c := c; cur_tr := tr; cur_tc := tc |})
      else
        (Some ptr, {| cur_r := cur_r s; cur_c := c;
                      cur_tr := cur_tr s; cur_tc := tc |}).

(** Calling [next_byte] until it returns [NULL]: the positions returned, in
    order, and the variables as the last call leaves them. *)
Fixpoint drain (fuel : nat) (image : Image) (tileize : Z) (s : Cursor)
  : option (list (Z * Z) * Cursor) :=
  match fuel with
  | O => None
  | S fuel' =>
      match next_byte image tileize s with
      | (None, s') => Some ([], s')
      | (Some p, s') =>
          match drain fuel' image tileize s' with
          | Some (ps, s'') => Some (p :: ps, s'')
          | None => None
          end
      end
  end.

(** [ptr[0]], [ptr[1]], [ptr[2]] for the pointer [next_byte] returned. *)
Definition read_pixel (image : Image) (pos : Z * Z) : option (Z * Z * Z) :=
  let '(r, c) := pos in
  let i := c * channels image in
  if (r <? 0) || (i <? 0) then None
  else
    row ← rows image !! Z.to_nat r;
    red ← row !! Z.to_nat i;
    green ← row !! Z.to_nat (i + 1);
    blue ← row !! Z.to_nat (i + 2);
    Some (red, green, blue).

(** ** Output *)

(** One [fprintf] call on the output file: a literal text, or a number
    under the format named. *)
Inductive out_item : Type :=
  | Str (s : string)
  | Fmt_0x04X (v : Z)     (* fprintf(out, "0x%04X", v) *)
  | Fmt_0x02X (v : Z)     (* fprintf(out, "0x%02X", v) *)
  | Fmt_0x04x (v : Z)     (* fprintf(out, "0x%04x", v) *)
  | Fmt_d (v : Z).        (* %d *)

Definition nl : string := String (ascii_of_nat 10) EmptyString.

(** ** The conversion *)

(** The body of the [while] loop of [png2gba] for the pixel at [pos]; the
    state is the palette, [colors_this_line] and the output so far. *)
Definition png2gba_pixel (image : Image) (palette : Z) (pos : Z * Z)
    (st : Palette * Z * list out_item)
  : outcome (Palette * Z * list out_item) :=
  let '(color_palette, colors_this_line, out) := st in
  let* (red, green, blue) := of_option (read_pixel image pos) in
  let color := quantize red green blue in
  let out := if colors_this_line =? 0 then out ++ [Str "    "] else out in
  let* (color_palette, out) :=
    (if palette =? 0 then Ret (color_palette, out ++ [Fmt_0x04X color])
     else
       let* (index, color_palette) := insert_palette color color_palette in
       Ret (color_palette, out ++ [Fmt_0x02X index])) in
  let out := out ++ [Str ", "] in
  let colors_this_line := colors_this_line + 1 in
  if colors_this_line >=? TILE_SIZE then Ret (color_palette, 0, out ++ [Str nl])
  else Ret (color_palette, colors_this_line, out).

(** [while ((ptr = next_byte(image, tileize))) { ... }] *)
Fixpoint png2gba_loop (fuel : nat) (image : Image) (palette tileize : Z)
    (s : Cursor) (st : Palette * Z * list out_item)
  : outcome (Cursor * (Palette * Z * list out_item)) :=
  match fuel with
  | O => OutOfFuel
  | S fuel' =>
      match next_byte image tileize s with
      | (None, s') => Ret (s', st)
      | (Some pos, s') =>
          let* st' := png2gba_pixel image palette pos st in
          png2gba_loop fuel' image palette tileize s' st'
      end
  end.

(** The loop that writes the colour table:
    [for (i = 0; i < PALETTE_MAX; i++) { ... }] *)
Fixpoint palette_rows (n : nat) (color_palette : list Z) (i : Z)
    (colors_this_line : Z) (out : list out_item) : outcome (list out_item) :=
  match n with
  | O => OutOfFuel
  | S n' =>
      if i <? PALETTE_MAX then
        let out := if colors_this_line =? 0 then out ++ [Str "    "] else out in
        let* v := of_option (color_palette !! Z.to_nat i) in
        let out := out ++ [Fmt_0x04x v] in
        let out := if negb (i =? PALETTE_MAX - 1) then out ++ [Str ", "] else out in
        let colors_this_line := colors_this_line + 1 in
        if colors_this_line >? 8 then
          palette_rows n' color_palette (i + 1) 0 (out ++ [Str nl])
        else palette_rows n' color_palette (i + 1) colors_this_line out
      else Ret out
  end.

(** [png2gba]. The function names [image], [color_palette] and
    [palette_size] without declaring them and calls [insert_palette] with
    three arguments; here [image] is the image [main] read and
    [color_palette] the [struct Palette] [main] built, passed to
    [insert_palette] as its second argument, and [color_palette[i]] is entry
    [i] of its [colors]. The result is the output file, the palette and the
    variables of [next_byte] when the function returns. *)
Definition png2gba (fuel : nat) (image : Image) (color_palette : Palette)
    (s : Cursor) (out : list out_item) (name : string) (palette tileize : Z)
  : outcome (list out_item * Palette * Cursor) :=
  let colors_this_line := 0 in
  let* (s, (color_palette, _, out)) :=
    png2gba_loop fuel image palette tileize s
      (color_palette, colors_this_line, out) in
  let out := out ++ [Str (nl +:+ "};" +:+ nl +:+ nl)] in
  if negb (palette =? 0) then
    let colors_this_line := 0 in
    let out := out ++ [Str "const unsigned short "; Str name;
                       Str ("_palette [] = {" +:+ nl)] in
    let* out :=
      palette_rows (S (Z.to_nat PALETTE_MAX)) (colors color_palette) 0
        colors_this_line out in
    Ret (out ++ [Str (nl +:+ "};" +:+ nl +:+ nl)], color_palette, s)
  else Ret (out, color_palette, s).

(** [strstr(name, ".png")] followed by [*extension = '\0']. *)
Definition chop_png (name : string) : option string :=
  match String.index 0 ".png" name with
  | Some n => Some (String.substring 0 n name)
  | None => None
  end.

(** [main] from "Verify Arguments" on, for the arguments [getopt] left in
    [args] and the image [read_png] returns for the input file. *)
Definition main (fuel : nat) (args : Arguments) (image : Image)
  : outcome (list out_item * Palette * Cursor) :=
  match input_file_name args with
  | None => Exit NoInputSpecified
  | Some input =>
      if negb (palette args =? 0) && negb (palette args =? 16)
         && negb (palette args =? 256)
      then Exit PaletteNot16Or256
      else
        match chop_png input with
        | None => Exit NameWithoutPng
        | Some name =>
            let out :=
              [Str "/* "; Str name;
               Str (".h" +:+ nl +:+ " * generated by png2gba */" +:+ nl +:+ nl);
               Str "#define "; Str name; Str "_width "; Fmt_d (width image);
               Str nl;
               Str "#define "; Str name; Str "_height "; Fmt_d (height image);
               Str (nl +:+ nl)] in
            let out :=
              if negb (palette args =? 0) then
                out ++ [Str "const unsigned char "; Str name;
                        Str ("_data [] = {" +:+ nl)]
              else
                out ++ [Str "const unsigned short "; Str name;
                        Str ("_data [] = {" +:+ nl)] in
            let pal := new_palette (palette args) in
            let* key := hex24_to_15 (colorkey args) in
            let* (_, pal) := insert_palette key pal in
            png2gba fuel image pal cursor0 out name (palette args)
              (tileize args)
        end
  end.

(** ** The text of the output file *)

Definition hex_char (upper : bool) (d : Z) : ascii :=
  ascii_of_N
    (Z.to_N (if d <? 10 then 48 + d else if upper then 55 + d else 87 + d)).

(** The base-16 digits of [v], most significant first, in front of [acc]. *)
Fixpoint hex_digits (fuel : nat) (upper : bool) (v : Z) (acc : string)
  : string :=
  match fuel with
  | O => acc
  | S fuel' =>
      let acc := String (hex_char upper (v mod 16)) acc in
      if v / 16 =? 0 then acc else hex_digits fuel' upper (v / 16) acc
  end.

Fixpoint zeros (n : nat) : string :=
  match n with
  | O => EmptyString
  | S n' => String "0"%char (zeros n')
  end.

(** [%0wX] and [%0wx]: the digits of [v], padded with zeros on the left to
    at least [w] characters. *)
Definition printf_hex (upper : bool) (w : nat) (v : Z) : string :=
  let s := hex_digits (S (Z.to_nat (Z.log2 v))) upper v EmptyString in
  zeros (w - String.length s) +:+ s.

Definition render_item (it : out_item) : string :=
  match it with
  | Str s => s
  | Fmt_0x04X v => "0x" +:+ printf_hex true 4 v
  | Fmt_0x02X v => "0x" +:+ printf_hex true 2 v
  | Fmt_0x04x v => "0x" +:+ printf_hex false 4 v
  | Fmt_d v => pretty v
  end.

Fixpoint render (out : list out_item) : string :=
  match out with
  | [] => EmptyString
  | it :: out' => render_item it +:+ render out'
  end.

(** ** Predicates and derived functions used in the statements *)

(** What the C types of [struct Palette] guarantee of its fields. *)
Definition palette_ok (p : Palette) : Prop :=
  length (colors p) = Z.to_nat PALETTE_MAX
  /\ 0 <= used p <= 255
  /\ 0 <= max p <= 255.

(** [color] is not among the entries [lo .. hi-1]. *)
Definition absent (color : Z) (p : Palette) (lo hi : Z) : Prop :=
  forall j : Z, lo <= j < hi -> colors p !! Z.to_nat j <> Some color.

(** [k] is the first index from [lo] on that holds [color]. *)
Definition first_at (color : Z) (p : Palette) (lo k : Z) : Prop :=
  lo <= k < used p
  /\ colors p !! Z.to_nat k = Some color
  /\ absent color p lo k.

(** Successive calls of [insert_palette], one for each colour of [cs]: the
    indices returned and the palette after the last call. *)
Fixpoint insert_all (cs : list Z) (p : Palette) : outcome (list Z * Palette) :=
  match cs with
  | [] => Ret ([], p)
  | c :: cs' =>
      let* (i, p') := insert_palette c p in
      let* (idxs, p'') := insert_all cs' p' in
      Ret (i :: idxs, p'')
  end.


(** The positions of the [h] rows from [r0] on and the [w] columns from [c0]
    on, row by row, each row from left to right. *)
Definition block (r0 c0 h w : Z) : list (Z * Z) :=
  seqZ r0 h ≫= λ r, pair r <$> seqZ c0 w.

(** Row-major order of a [W] by [H] image. *)
Definition row_major (W H : Z) : list (Z * Z) := block 0 0 H W.

(** Tile-major order: tile rows from the top, in each tile row the tiles from
    the left, each 8 by 8 tile row-major. *)
Definition tile_major (W H : Z) : list (Z * Z) :=
  seqZ 0 (H / 8) ≫= λ R, seqZ 0 (W / 8) ≫= λ C, block (8 * R) (8 * C) 8 8.

(** [steps image tileize s ps s']: successive calls of [next_byte] started
    with the variables [s] return the positions [ps] and leave [s']. *)
Inductive steps (image : Image) (tileize : Z)
  : Cursor -> list (Z * Z) -> Cursor -> Prop :=
  | steps_nil (s : Cursor) : steps image tileize s [] s
  | steps_cons (s s' s'' : Cursor) (p : Z * Z) (ps : list (Z * Z)) :
      next_byte image tileize s = (Some p, s') ->
      steps image tileize s' ps s'' ->
      steps image tileize s (p :: ps) s''.

(** A small image for examples: [w] by [h] pixels of three bytes, all rows
    equal to [w] copies of the pixel [px]. *)
Definition solid_image (w h : Z) (px : list Z) : Image :=
  {| width := w; height := h; channels := 3; color_type := 2; bit_depth := 8;
     rows := replicate (Z.to_nat h) (mjoin (replicate (Z.to_nat w) px)) |}.

(** The 15-bit colour of the pixel at [pos], if its bytes can be read. *)
Definition pixel_color (image : Image) (pos : Z * Z) : option Z :=
  match read_pixel image pos with
  | Some (red, green, blue) => Some (quantize red green blue)
  | None => None
  end.

(** The body of the [while] loop of [png2gba] for each position of [ps] in
    turn. *)
Fixpoint png2gba_pixels (image : Image) (palette : Z) (ps : list (Z * Z))
    (st : Palette * Z * list out_item)
  : outcome (Palette * Z * list out_item) :=
  match ps with
  | [] => Ret st
  | pos :: ps' =>
      let* st' := png2gba_pixel image palette pos st in
      png2gba_pixels image palette ps' st'
  end.

(** *** Layout of a table in lines

    An entry is what is written for one value: the number and, but for the
    last entry of the colour table, the separator. *)

(** [l] cut in pieces of [n] elements; the last piece may be shorter. *)
Fixpoint chunks {A : Type} (fuel n : nat) (l : list A) : list (list A) :=
  match l with
  | [] => []
  | _ :: _ =>
      match fuel with
      | O => []
      | S fuel' => take n l :: chunks fuel' n (drop n l)
      end
  end.

(** One line of at most [n] entries: four spaces, the entries, and a line
    break if the line is full. *)
Definition line (n : nat) (entries : list (list out_item)) : list out_item :=
  Str "    " :: mjoin entries
  ++ (if (length entries =? n)%nat then [Str nl] else []).

(** The entries laid out [n] to a line. *)
Definition lines (n : nat) (entries : list (list out_item)) : list out_item :=
  mjoin (line n <$> chunks (length entries) n entries).

(** The same layout told entry by entry, [k] entries being on the current
    line already. *)
Fixpoint lay (n k : nat) (entries : list (list out_item)) : list out_item :=
  match entries with
  | [] => []
  | e :: es =>
      (if (k =? 0)%nat then [Str "    "] else [])
      ++ e
      ++ (if (n <=? S k)%nat then Str nl :: lay n 0 es else lay n (S k) es)
  end.

(** The number written for a pixel: its colour, or its palette index. *)
Definition pixel_item (palette : Z) (v : Z) : out_item :=
  if palette =? 0 then Fmt_0x04X v else Fmt_0x02X v.

Definition pixel_entries (palette : Z) (vals : list Z) : list (list out_item) :=
  (λ v, [pixel_item palette v; Str ", "]) <$> vals.

(** The entries of the colour table: every colour but the one at index
    [PALETTE_MAX - 1] is followed by a separator. *)
Definition table_entries (cs : list Z) : list (list out_item) :=
  imap (λ i v, if (i =? 255)%nat then [Fmt_0x04x v]
               else [Fmt_0x04x v; Str ", "]) cs.

(** The text written after the pixels, and in front of the colour table. *)
Definition postamble : list out_item := [Str (nl +:+ "};" +:+ nl +:+ nl)].

Definition table_head (name : string) : list out_item :=
  [Str "const unsigned short "; Str name; Str ("_palette [] = {" +:+ nl)].

(** [w] base-16 digits of [v], most significant first. *)
Fixpoint hex_fixed (upper : bool) (w : nat) (v : Z) : string :=
  match w with
  | O => EmptyString
  | S w' =>
      String (hex_char upper ((v / 16 ^ Z.of_nat w') mod 16))
        (hex_fixed upper w' v)
  end.

(** The numbers written with [0x%04x], that is, the colour table. *)
Definition table_values (out : list out_item) : list Z :=
  omap (λ it, match it with Fmt_0x04x v => Some v | _ => None end) out.

(** The numbers written with [0x%02X], that is, the palette indices. *)
Definition index_values (out : list out_item) : list Z :=
  omap (λ it, match it with Fmt_0x02X v => Some v | _ => None end) out.

(** The arguments of a run on [a.png] with the default colour key. *)
Definition example_args (arg_palette arg_tileize : Z) : Arguments :=
  {| palette := arg_palette; tileize := arg_tileize; colorkey := "#ff00ff";
     output_file_name := None; input_file_name := Some "a.png"%string |}.

(** The palette [main] hands to [png2gba] in a run with [-p16] and the
    default colour key: the key, [0x7C1F], in entry 0. *)
Definition keyed_palette : Palette :=
  {| colors := <[0%nat := 31775]> (replicate (Z.to_nat PALETTE_MAX) 0);
     used := 1;
     max := 16 |}.

(** Two palettes of capacity 16 for examples, with two and with three
    colours in use. *)
Definition two_colors : Palette :=
  {| colors := [31775; 31] ++ replicate 254 0; used := 2; max := 16 |}.

Definition three_colors : Palette :=
  {| colors := [31775; 31; 992] ++ replicate 253 0; used := 3; max := 16 |}.

(** The value of two base-16 digits. *)
Definition hex_byte (a b : ascii) : Z :=
  16 * default 0 (hex_digit a) + default 0 (hex_digit b).

(** An image as [read_png] returns it: [height] rows of [width] pixels, each
    of [channels] bytes, three or four. *)
Definition image_ok (image : Image) : Prop :=
  0 < width image
  /\ 0 < height image
  /\ 3 <= channels image <= 4
  /\ length (rows image) = Z.to_nat (height image)
  /\ Forall (λ row, length row = Z.to_nat (width image * channels image))
       (rows image).

(** No colour sits in two of the entries in use. *)
Definition distinct_used (p : Palette) : Prop :=
  forall (i j c : Z),
    0 <= i < used p -> 0 <= j < used p ->
    colors p !! Z.to_nat i = Some c -> colors p !! Z.to_nat j = Some c ->
    i = j.

(** A character with which no number can start for [strtol]: neither a
    base-16 digit nor white space nor a sign. *)
Definition no_number (a : ascii) : bool :=
  negb (is_hex a) && negb (is_space a)
  && negb (Ascii.eqb a "-"%char) && negb (Ascii.eqb a "+"%char).

(** A string of seven characters and more. *)
Definition key_string (h r0 r1 g0 g1 b0 b1 : ascii) (rest : string) : string :=
  String h (String r0 (String r1 (String g0 (String g1 (String b0
    (String b1 rest)))))).


(** ** [extractFileName] *)

(** [strrchr(s, c)] for a character [c] other than NUL: the position of the
    last [c] in [s]; [None] is the null pointer. *)
Fixpoint strrchr (s : string) (c : ascii) : option nat :=
  match s with
  | EmptyString => None
  | String a s' =>
      match strrchr s' c with
      | Some n => Some (S n)
      | None => if Ascii.eqb a c then Some 0%nat else None
      end
  end.

(** [p > q] for two results of [strrchr] on the same string: positions
    compare as numbers, and the null pointer, address 0, is below every
    position. *)
Definition ptr_gt (p q : option nat) : bool :=
  match p, q with
  | Some m, Some n => (n <? m)%nat
  | Some _, None => true
  | None, _ => false
  end.

(** [strdup(s + n)] for [n] at most the length of [s]. *)
Fixpoint string_from (n : nat) (s : string) : string :=
  match n, s with
  | O, _ => s
  | S n', String _ s' => string_from n' s'
  | S _, EmptyString => EmptyString
  end.

Definition slash : ascii := "/"%char.
Definition backslash : ascii := ascii_of_nat 92.

(** [extractFileName]: the part of [path] after its last [/] or backslash. *)
Definition extractFileName (path : string) : string :=
  let lastSlash := strrchr path slash in
  let lastBackslash := strrchr path backslash in
  let lastSeparator :=
    if ptr_gt lastSlash lastBackslash then lastSlash else lastBackslash in
  match lastSeparator with
  | None => path
  | Some n => string_from (S n) path
  end.

(** ** The command line *)

Definition dec_digit (a : ascii) : option Z :=
  let n := Z.of_N (N_of_ascii a) in
  if (48 <=? n) && (n <=? 57) then Some (n - 48) else None.

Fixpoint atoi_digits (s : list ascii) (acc : Z) : Z :=
  match s with
  | [] => acc
  | a :: s' =>
      match dec_digit a with
      | Some d => atoi_digits s' (10 * acc + d)
      | None => acc
      end
  end.

(** [atoi]: white space, an optional sign, decimal digits. (Numbers beyond
    the range of [int], for which C leaves the result open, are not cut.) *)
Definition atoi (s : string) : Z :=
  match strtol_skip (list_ascii_of_string s) with
  | a :: s' =>
      if Ascii.eqb a "-"%char then - atoi_digits s' 0
      else if Ascii.eqb a "+"%char then atoi_digits s' 0
      else atoi_digits (a :: s') 0
  | [] => 0
  end.

(** What the option loop of [main] ends in: the arguments, [exit(0)] for
    [-h], or a null pointer handed to a function that reads a string. *)
Inductive parsed : Type :=
  | Parsed (args : Arguments)
  | Help
  | NullString.

(** "the default values" *)
Definition default_args : Arguments :=
  {| palette := 0; tileize := 0; colorkey := "#ff00ff";
     output_file_name := None; input_file_name := None |}.

(** The [switch] of the option loop for one result of [getopt]: the option
    character and [optarg], [None] for a null [optarg]. *)
Definition option_case (args : Arguments) (opt : ascii)
    (optarg : option string) : parsed :=
  if Ascii.eqb opt "p"%char then
    match optarg with
    | None => NullString
    | Some v =>
        let p := atoi v in
        Parsed {| palette := if negb (p =? 0) then p else PALETTE_MAX;
                  tileize := tileize args; colorkey := colorkey args;
                  output_file_name := output_file_name args;
                  input_file_name := input_file_name args |}
    end
  else if Ascii.eqb opt "t"%char then
    Parsed {| palette := palette args; tileize := 1;
              colorkey := colorkey args;
              output_file_name := output_file_name args;
              input_file_name := input_file_name args |}
  else if Ascii.eqb opt "o"%char then
    Parsed {| palette := palette args; tileize := tileize args;
              colorkey := colorkey args;
              output_file_name := optarg;
              input_file_name := input_file_name args |}
  else if Ascii.eqb opt "c"%char then
    match optarg with
    | None => NullString
    | Some v =>
        Parsed {| palette := palette args; tileize := tileize args;
                  colorkey := v;
                  output_file_name := output_file_name args;
                  input_file_name := input_file_name args |}
    end
  else if Ascii.eqb opt "i"%char then
    Parsed {| palette := palette args; tileize := tileize args;
              colorkey := colorkey args;
              output_file_name := output_file_name args;
              input_file_name := optarg |}
  else if Ascii.eqb opt "h"%char then Help
  else Parsed args.

(** [while ((opt = getopt(...)) != -1) switch (opt) ...], for the results
    [getopt] gives one after the other. *)
Fixpoint option_loop (opts : list (ascii * option string)) (args : Arguments)
  : parsed :=
  match opts with
  | [] => Parsed args
  | (opt, optarg) :: opts' =>
      match option_case args opt optarg with
      | Parsed args' => option_loop opts' args'
      | Help => Help
      | NullString => NullString
      end
  end.
(** * Properties *)

(** ** Colour reduction *)

Lemma shiftr3_byte (x : Z) : 0 <= x <= 255 -> 0 <= x ≫ 3 <= 31.
Proof.
  intros Hx. rewrite Z.shiftr_div_pow2 by lia.
  change (2 ^ 3) with 8. split.
  - apply Z.div_pos; lia.
  - assert (x / 8 < 32) by (apply Z.div_lt_upper_bound; lia). lia.
Qed.

Lemma land_shiftl_below (a n lo : Z) :
  0 <= n -> 0 <= lo < 2 ^ n -> Z.land (a ≪ n) lo = 0.
Proof.
  intros Hn Hlo. apply Z.bits_inj'. intros k Hk.
  rewrite Z.land_spec, Z.bits_0.
  destruct (Z.lt_ge_cases k n) as [Hlt | Hge].
  - rewrite Z.shiftl_spec_low by lia. reflexivity.
  - destruct (Z.eq_dec lo 0) as [-> | Hne].
    + rewrite Z.bits_0. apply andb_false_r.
    + rewrite (Z.bits_above_log2 lo k); [apply andb_false_r | lia |].
      apply Z.lt_le_trans with n; [| lia].
      apply Z.log2_lt_pow2; lia.
Qed.

(** The three additions of the colour reduction never carry: the sum is the
    bitwise or of the three fields, and it fits in 15 bits. *)
Lemma pack_fields (R G B : Z) :
  0 <= R <= 31 -> 0 <= G <= 31 -> 0 <= B <= 31 ->
  to_ushort (to_ushort (to_ushort (B ≪ 10) + (G ≪ 5)) + R)
  = Z.lor (Z.lor (B ≪ 10) (G ≪ 5)) R
  /\ 0 <= Z.lor (Z.lor (B ≪ 10) (G ≪ 5)) R < 2 ^ 15.
Proof.
  intros HR HG HB.
  assert (E1 : B ≪ 10 + G ≪ 5 = Z.lor (B ≪ 10) (G ≪ 5)).
  { apply Z.add_nocarry_lor, land_shiftl_below; [lia |].
    rewrite Z.shiftl_mul_pow2 by lia. change (2 ^ 5) with 32.
    change (2 ^ 10) with 1024. lia. }
  assert (E2 : B ≪ 10 + G ≪ 5 = (B * 32 + G) ≪ 5).
  { rewrite !Z.shiftl_mul_pow2 by lia. change (2 ^ 5) with 32.
    change (2 ^ 10) with 1024. lia. }
  assert (E3 : B ≪ 10 + G ≪ 5 + R = Z.lor (Z.lor (B ≪ 10) (G ≪ 5)) R).
  { rewrite <- E1, E2. apply Z.add_nocarry_lor, land_shiftl_below; [lia |].
    change (2 ^ 5) with 32. lia. }
  assert (Hb : 0 <= B ≪ 10 <= 31 * 1024 /\ 0 <= G ≪ 5 <= 31 * 32).
  { rewrite !Z.shiftl_mul_pow2 by lia. change (2 ^ 5) with 32.
    change (2 ^ 10) with 1024. lia. }
  rewrite <- E3. change (2 ^ 15) with 32768. split; [| lia].
  unfold to_ushort.
  rewrite (Z.mod_small (B ≪ 10)) by lia.
  rewrite (Z.mod_small (B ≪ 10 + G ≪ 5)) by lia.
  apply Z.mod_small. lia.
Qed.

Lemma quantize_fields (r g b : Z) :
  0 <= r <= 255 -> 0 <= g <= 255 -> 0 <= b <= 255 ->
  quantize r g b = Z.lor (Z.lor ((b ≫ 3) ≪ 10) ((g ≫ 3) ≪ 5)) (r ≫ 3)
  /\ 0 <= quantize r g b < 2 ^ 15.
Proof.
  intros Hr Hg Hb. unfold quantize.
  destruct (pack_fields (r ≫ 3) (g ≫ 3) (b ≫ 3)) as [E Hrange];
    auto using shiftr3_byte.
  rewrite E. auto.
Qed.

(** Flipping bits among the low three of a byte leaves a byte with the same
    upper five bits. *)
Lemma lxor_low3 (x d : Z) :
  0 <= x <= 255 -> 0 <= d < 8 ->
  0 <= Z.lxor x d <= 255 /\ Z.lxor x d ≫ 3 = x ≫ 3.
Proof.
  intros Hx Hd.
  assert (Hs : Z.lxor x d ≫ 3 = x ≫ 3).
  { rewrite Z.shiftr_lxor. replace (d ≫ 3) with 0; [apply Z.lxor_0_r |].
    rewrite Z.shiftr_div_pow2 by lia. change (2 ^ 3) with 8.
    symmetry. apply Z.div_small. lia. }
  split; [| exact Hs].
  assert (H0 : 0 <= Z.lxor x d) by (apply Z.lxor_nonneg; lia).
  split; [exact H0 |].
  pose proof (shiftr3_byte x Hx) as Hq.
  rewrite <- Hs, Z.shiftr_div_pow2 in Hq by lia. change (2 ^ 3) with 8 in Hq.
  destruct Hq as [_ Hq].
  pose proof (Z.mul_div_le (Z.lxor x d) 8 ltac:(lia)).
  pose proof (Z.mod_pos_bound (Z.lxor x d) 8 ltac:(lia)).
  pose proof (Z.div_mod (Z.lxor x d) 8 ltac:(lia)).
  lia.
Qed.

(** C1. For every RGB triple with components in [0,255] the colour reduction
    returns the 15-bit value [(b>>3)<<10 | (g>>3)<<5 | (r>>3)]; hence the
    result is the same for any two triples that agree on the top five bits of
    each channel, in particular after flipping any of the low three bits of
    [r], [g] or [b]. *)
Theorem quantize_top_five_bits (r g b : Z) :
  0 <= r <= 255 -> 0 <= g <= 255 -> 0 <= b <= 255 ->
  quantize r g b = Z.lor (Z.lor ((b ≫ 3) ≪ 10) ((g ≫ 3) ≪ 5)) (r ≫ 3)
  /\ 0 <= quantize r g b < 2 ^ 15
  /\ (forall r' g' b' : Z,
        0 <= r' <= 255 -> 0 <= g' <= 255 -> 0 <= b' <= 255 ->
        r' ≫ 3 = r ≫ 3 -> g' ≫ 3 = g ≫ 3 -> b' ≫ 3 = b ≫ 3 ->
        quantize r' g' b' = quantize r g b)
  /\ (forall dr dg db : Z,
        0 <= dr < 8 -> 0 <= dg < 8 -> 0 <= db < 8 ->
        quantize (Z.lxor r dr) (Z.lxor g dg) (Z.lxor b db) = quantize r g b).
Proof.
  intros Hr Hg Hb.
  destruct (quantize_fields r g b Hr Hg Hb) as [E Hrange].
  assert (Hsame : forall r' g' b' : Z,
    0 <= r' <= 255 -> 0 <= g' <= 255 -> 0 <= b' <= 255 ->
    r' ≫ 3 = r ≫ 3 -> g' ≫ 3 = g ≫ 3 -> b' ≫ 3 = b ≫ 3 ->
    quantize r' g' b' = quantize r g b).
  { intros r' g' b' Hr' Hg' Hb' Er Eg Eb.
    destruct (quantize_fields r' g' b' Hr' Hg' Hb') as [E' _].
    rewrite E', E, Er, Eg, Eb. reflexivity. }
  repeat split; try tauto; try exact Hsame.
  intros dr dg db Hdr Hdg Hdb.
  destruct (lxor_low3 r dr Hr Hdr) as [? ?].
  destruct (lxor_low3 g dg Hg Hdg) as [? ?].
  destruct (lxor_low3 b db Hb Hdb) as [? ?].
  apply Hsame; assumption.
Qed.

Lemma quantize_top_five_bits_witness :
  quantize 255 0 130 = Z.lor (Z.lor ((130 ≫ 3) ≪ 10) ((0 ≫ 3) ≪ 5)) (255 ≫ 3)
  /\ quantize (Z.lxor 255 5) (Z.lxor 0 7) (Z.lxor 130 1) = quantize 255 0 130.
Proof.
  destruct (quantize_top_five_bits 255 0 130) as (E & _ & _ & P);
    [lia | lia | lia |].
  split; [exact E | apply P; lia].
Defined.

(** ** The palette *)


Lemma to_uchar_small (x : Z) : 0 <= x <= 255 -> to_uchar x = x.
Proof. intros Hx. unfold to_uchar. apply Z.mod_small. lia. Qed.

Lemma palette_scan_spec (n : nat) (color : Z) (p : Palette) :
  palette_ok p ->
  forall i : Z,
    0 <= i -> (Z.to_nat (used p - i) < n)%nat ->
    match palette_scan n color p i with
    | Ret (Some k) => first_at color p i k
    | Ret None => absent color p i (used p)
    | _ => False
    end.
Proof.
  intros (Hlen & Hused & Hmax).
  induction n as [| n IH]; intros i Hi Hn; [lia |].
  cbn [palette_scan].
  destruct (i <? used p) eqn:Hlt.
  - apply Z.ltb_lt in Hlt.
    destruct (lookup_lt_is_Some_2 (colors p) (Z.to_nat i)) as [ci Hci].
    { rewrite Hlen. unfold PALETTE_MAX. lia. }
    rewrite Hci. cbn [of_option bind].
    destruct (ci =? color) eqn:Hc.
    + apply Z.eqb_eq in Hc. subst ci.
      repeat split; [lia | lia | exact Hci |]. intros j Hj. lia.
    + apply Z.eqb_neq in Hc.
      rewrite to_uchar_small by lia.
      specialize (IH (i + 1) ltac:(lia) ltac:(lia)).
      destruct (palette_scan n color p (i + 1)) as [[k |] | | |];
        try contradiction.
      * destruct IH as (Hk & Hat & Habs).
        repeat split; [lia | lia | exact Hat |].
        intros j Hj. destruct (Z.eq_dec j i) as [-> | Hne].
        -- rewrite Hci. congruence.
        -- apply Habs. lia.
      * intros j Hj. destruct (Z.eq_dec j i) as [-> | Hne].
        -- rewrite Hci. congruence.
        -- apply IH. lia.
  - apply Z.ltb_ge in Hlt. intros j Hj. lia.
Qed.

(** The three ways a call of [insert_palette] on a well-typed palette can
    go: the colour is there already, the palette is full, or the colour is
    stored in the next free entry. *)
Lemma insert_palette_cases (color : Z) (p : Palette) :
  palette_ok p ->
  (exists k : Z, first_at color p 0 k /\ insert_palette color p = Ret (k, p))
  \/ (absent color p 0 (used p) /\ used p >= max p - 1
      /\ insert_palette color p = Exit TooManyColors)
  \/ (absent color p 0 (used p) /\ used p < max p - 1
      /\ insert_palette color p
         = Ret (used p,
                {| colors := <[Z.to_nat (used p) := color]> (colors p);
                   used := used p + 1;
                   max := max p |})).
Proof.
  intros Hok.
  pose proof (palette_scan_spec 257 color p Hok 0 ltac:(lia)) as Hscan.
  destruct Hok as (Hlen & Hused & Hmax).
  specialize (Hscan ltac:(lia)).
  unfold insert_palette.
  destruct (palette_scan 257 color p 0) as [[k |] | | |]; try contradiction;
    cbn [bind].
  - left. exists k. auto.
  - right. destruct (used p >=? max p - 1) eqn:Hfull.
    + left. rewrite Z.geb_leb in Hfull. apply Z.leb_le in Hfull.
      repeat split; [exact Hscan | lia].
    + right. rewrite Z.geb_leb in Hfull. apply Z.leb_gt in Hfull.
      rewrite (to_uchar_small (used p + 1)) by lia.
      replace (used p + 1 - 1) with (used p) by lia.
      rewrite (to_uchar_small (used p)) by lia.
      rewrite Hlen. unfold PALETTE_MAX.
      replace ((0 <=? used p) && (used p <? Z.of_nat (Z.to_nat 256)))
        with true
        by (symmetry; apply andb_true_iff; split;
            [apply Z.leb_le | apply Z.ltb_lt]; lia).
      repeat split; [exact Hscan | lia].
Qed.

Lemma first_at_unique (color : Z) (p : Palette) (lo k k' : Z) :
  first_at color p lo k -> first_at color p lo k' -> k = k'.
Proof.
  intros (Hk & Hat & Habs) (Hk' & Hat' & Habs').
  destruct (Z.lt_trichotomy k k') as [Hlt | [Heq | Hgt]]; [| exact Heq |].
  - exfalso. apply (Habs' k); [lia | exact Hat].
  - exfalso. apply (Habs k'); [lia | exact Hat'].
Qed.

(** What a returning call guarantees. *)
Lemma insert_palette_ret (color : Z) (p p' : Palette) (idx : Z) :
  palette_ok p ->
  insert_palette color p = Ret (idx, p') ->
  palette_ok p'
  /\ max p' = max p
  /\ 0 <= idx < used p'
  /\ first_at color p' 0 idx
  /\ (forall j : Z, 0 <= j < used p ->
        colors p' !! Z.to_nat j = colors p !! Z.to_nat j)
  /\ used p <= used p' <= used p + 1
  /\ used p' <= Z.max (used p) (max p - 1).
Proof.
  intros Hok Hins.
  destruct (insert_palette_cases color p Hok)
    as [(k & Hfirst & E) | [(_ & _ & E) | (Habs & Hroom & E)]];
    rewrite E in Hins; inversion Hins; subst; clear Hins.
  - split; [exact Hok |]. repeat split; try lia; apply Hfirst.
  - destruct Hok as (Hlen & Hused & Hmax).
    split.
    { unfold palette_ok. cbn [colors used max]. rewrite length_insert.
      split; [exact Hlen | lia]. }
    unfold first_at, absent. cbn [colors used max].
    repeat split; try lia.
    + apply list_lookup_insert_eq. rewrite Hlen. unfold PALETTE_MAX. lia.
    + intros j Hj. rewrite list_lookup_insert_ne by lia. apply Habs. lia.
    + intros j Hj. apply list_lookup_insert_ne. lia.
Qed.

Lemma insert_palette_first (color : Z) (p : Palette) (k : Z) :
  palette_ok p -> first_at color p 0 k -> insert_palette color p = Ret (k, p).
Proof.
  intros Hok Hfirst.
  destruct (insert_palette_cases color p Hok)
    as [(k' & Hfirst' & E) | [(Habs & _ & _) | (Habs & _ & _)]].
  - rewrite (first_at_unique _ _ _ _ _ Hfirst Hfirst'). exact E.
  - destruct Hfirst as (Hk & Hat & _). exfalso. exact (Habs k Hk Hat).
  - destruct Hfirst as (Hk & Hat & _). exfalso. exact (Habs k Hk Hat).
Qed.


Lemma insert_all_frame (cs : list Z) :
  forall (p p' : Palette) (idxs : list Z),
    palette_ok p ->
    insert_all cs p = Ret (idxs, p') ->
    palette_ok p'
    /\ max p' = max p
    /\ used p <= used p'
    /\ (forall j : Z, 0 <= j < used p ->
          colors p' !! Z.to_nat j = colors p !! Z.to_nat j).
Proof.
  induction cs as [| c cs IH]; intros p p' idxs Hok Hall; cbn in Hall.
  - inversion Hall; subst. auto with lia.
  - destruct (insert_palette c p) as [[i p1] | | |] eqn:E; try discriminate.
    cbn in Hall.
    destruct (insert_all cs p1) as [[idxs' p2] | | |] eqn:E'; try discriminate.
    cbn in Hall. inversion Hall; subst; clear Hall.
    destruct (insert_palette_ret _ _ _ _ Hok E)
      as (Hok1 & Hmax1 & _ & _ & Hframe1 & Hused1 & _).
    destruct (IH _ _ _ Hok1 E') as (Hok2 & Hmax2 & Hused2 & Hframe2).
    repeat split; try apply Hok2; try lia.
    intros j Hj. rewrite Hframe2 by lia. apply Hframe1. lia.
Qed.

(** Every index returned during a run of insertions holds, in the palette
    the run ends with, the colour it was returned for. *)
Lemma insert_all_lookup (cs : list Z) :
  forall (p p' : Palette) (idxs : list Z),
    palette_ok p ->
    insert_all cs p = Ret (idxs, p') ->
    Forall2 (fun c i => 0 <= i < used p'
                        /\ colors p' !! Z.to_nat i = Some c) cs idxs.
Proof.
  induction cs as [| c cs IH]; intros p p' idxs Hok Hall; cbn in Hall.
  - inversion Hall; subst. constructor.
  - destruct (insert_palette c p) as [[i p1] | | |] eqn:E; try discriminate.
    cbn in Hall.
    destruct (insert_all cs p1) as [[idxs' p2] | | |] eqn:E'; try discriminate.
    cbn in Hall. inversion Hall; subst; clear Hall.
    destruct (insert_palette_ret _ _ _ _ Hok E)
      as (Hok1 & _ & Hi & (_ & Hat & _) & _).
    destruct (insert_all_frame _ _ _ _ Hok1 E') as (_ & _ & Hused2 & Hframe2).
    constructor; [| exact (IH _ _ _ Hok1 E')].
    split; [lia |]. rewrite Hframe2 by lia. exact Hat.
Qed.

Lemma new_palette_ok (arg_palette : Z) : palette_ok (new_palette arg_palette).
Proof.
  unfold palette_ok, new_palette, to_uchar. cbn [colors used max].
  rewrite length_replicate.
  pose proof (Z.mod_pos_bound arg_palette 256 ltac:(lia)). lia.
Qed.

(** The palette of a run started with [-p16] behaves as a table of 15
    usable entries: a colour that is not yet in it is stored while fewer
    than 15 entries are used and refused from then on. *)
Lemma insert_palette_capacity_16 (color : Z) (p : Palette) :
  palette_ok p -> max p = to_uchar 16 -> absent color p 0 (used p) ->
  (used p < 16 - 1 ->
     exists p', insert_palette color p = Ret (used p, p')
                /\ used p' = used p + 1)
  /\ (used p >= 16 - 1 -> insert_palette color p = Exit TooManyColors).
Proof.
  intros Hok Hmax Habs. change (to_uchar 16) with 16 in Hmax.
  destruct (insert_palette_cases color p Hok)
    as [(k & (Hk & Hat & _) & _) | [(_ & Hfull & E) | (_ & Hroom & E)]].
  - exfalso. exact (Habs k Hk Hat).
  - split; [lia | intros _; exact E].
  - split; [| lia]. intros _. eexists. split; [exact E | reflexivity].
Qed.

(** C5. If a colour is already in the palette, [insert_palette] returns the
    index of its first occurrence and leaves the palette, and so its size,
    as it was.  In particular, whenever an insertion of a colour returns,
    inserting the same colour again returns the same index and does not
    change the palette. *)
Theorem insert_palette_existing (color : Z) (p : Palette) (k : Z) :
  palette_ok p ->
  0 <= k < used p ->
  colors p !! Z.to_nat k = Some color ->
  (forall j : Z, 0 <= j < k -> colors p !! Z.to_nat j <> Some color) ->
  insert_palette color p = Ret (k, p)
  /\ (forall (c i : Z) (p1 : Palette),
        insert_palette c p = Ret (i, p1) ->
        insert_palette c p1 = Ret (i, p1)).
Proof.
  intros Hok Hk Hat Hfirst. split.
  - apply insert_palette_first; [exact Hok |]. repeat split; auto; lia.
  - intros c i p1 E.
    destruct (insert_palette_ret _ _ _ _ Hok E) as (Hok1 & _ & _ & Hf & _).
    apply insert_palette_first; assumption.
Qed.

Lemma insert_palette_existing_witness :
  insert_palette 31 three_colors = Ret (1, three_colors).
Proof.
  refine (proj1 (insert_palette_existing 31 three_colors 1 _ _ _ _)).
  - unfold palette_ok, three_colors, PALETTE_MAX. cbn. repeat split; lia.
  - cbn. lia.
  - reflexivity.
  - intros j Hj. assert (j = 0) as -> by lia. cbn. discriminate.
Defined.

(** C4. The palette [main] builds for a capacity of 256 refuses every
    colour, although no entry is in use: [max] is an [unsigned char], so it
    holds 0 instead of 256, and [used >= max - 1] holds from the start. *)
Theorem insert_palette_capacity_256 (color : Z) :
  used (new_palette 256) = 0
  /\ max (new_palette 256) = 0
  /\ insert_palette color (new_palette 256) = Exit TooManyColors.
Proof. repeat split. Qed.

(** C10. A call of [insert_palette] that returns leaves every entry below the
    previous size as it was and grows the size by at most one; hence the
    index it returned still holds the same colour after any number of later
    insertions. *)
Theorem insert_palette_frame (color : Z) (p p' : Palette) (idx : Z) :
  palette_ok p ->
  insert_palette color p = Ret (idx, p') ->
  (forall j : Z, 0 <= j < used p ->
     colors p' !! Z.to_nat j = colors p !! Z.to_nat j)
  /\ used p <= used p' <= used p + 1
  /\ (forall (cs idxs : list Z) (p'' : Palette),
        insert_all cs p' = Ret (idxs, p'') ->
        colors p'' !! Z.to_nat idx = Some color).
Proof.
  intros Hok E.
  destruct (insert_palette_ret _ _ _ _ Hok E)
    as (Hok1 & _ & Hi & (_ & Hat & _) & Hframe & Hused & _).
  repeat split; try lia; [exact Hframe |].
  intros cs idxs p'' Hall.
  destruct (insert_all_frame _ _ _ _ Hok1 Hall) as (_ & _ & _ & Hframe2).
  rewrite Hframe2 by lia. exact Hat.
Qed.

Lemma insert_palette_frame_witness :
  exists (idxs : list Z) (p'' : Palette),
    insert_all [31; 5; 31775; 6] three_colors = Ret (idxs, p'')
    /\ colors p'' !! Z.to_nat 2 = Some 992.
Proof.
  eexists _, _. split; [vm_compute; reflexivity |].
  refine (proj2 (proj2 (insert_palette_frame 992 two_colors three_colors 2 _ _))
            [31; 5; 31775; 6] _ _ _).
  - unfold palette_ok, two_colors, PALETTE_MAX. cbn. repeat split; lia.
  - reflexivity.
  - vm_compute. reflexivity.
Defined.

(** ** Traversal *)

Lemma steps_app (image : Image) (tileize : Z) (s s' s'' : Cursor)
    (ps ps' : list (Z * Z)) :
  steps image tileize s ps s' -> steps image tileize s' ps' s'' ->
  steps image tileize s (ps ++ ps') s''.
Proof.
  induction 1 as [| s0 s1 s2 p ps0 Hstep _ IH]; intros Hrest; [exact Hrest |].
  cbn. eapply steps_cons; [exact Hstep | exact (IH Hrest)].
Qed.

(** A run of calls that ends where [next_byte] returns [NULL] is what
    [drain] computes, whatever fuel beyond the number of positions it has. *)
Lemma steps_drain (image : Image) (tileize : Z) (s s' : Cursor)
    (ps : list (Z * Z)) :
  steps image tileize s ps s' ->
  next_byte image tileize s' = (None, s') ->
  forall fuel : nat, (length ps < fuel)%nat ->
    drain fuel image tileize s = Some (ps, s').
Proof.
  induction 1 as [s0 | s0 s1 s2 p ps0 Hstep _ IH]; intros Hend fuel Hfuel;
    (destruct fuel as [| fuel]; [cbn in Hfuel; lia |]); cbn [drain].
  - rewrite Hend. reflexivity.
  - rewrite Hstep, (IH Hend fuel) by (cbn in Hfuel; lia). reflexivity.
Qed.

Lemma next_byte_end (image : Image) (tileize c tr tc : Z) :
  let s := {| cur_r := height image; cur_c := c; cur_tr := tr; cur_tc := tc |} in
  next_byte image tileize s = (None, s).
Proof. intros s. unfold next_byte, s. cbn. rewrite Z.eqb_refl. reflexivity. Qed.

Lemma block_cons (r0 c0 h w : Z) :
  0 < h -> block r0 c0 h w = (pair r0 <$> seqZ c0 w) ++ block (r0 + 1) c0 (h - 1) w.
Proof.
  intros Hh. unfold block. rewrite (seqZ_cons r0 h) by lia.
  rewrite bind_cons. reflexivity.
Qed.

Lemma elem_of_block (r0 c0 h w r c : Z) :
  (r, c) ∈ block r0 c0 h w <-> r0 <= r < r0 + h /\ c0 <= c < c0 + w.
Proof.
  unfold block. rewrite list_elem_of_bind. split.
  - intros (r' & Hin & Hr). apply list_elem_of_fmap in Hin.
    destruct Hin as (c' & E & Hc). inversion E; subst.
    apply elem_of_seqZ in Hr, Hc. lia.
  - intros (Hr & Hc). exists r. split.
    + apply list_elem_of_fmap. exists c. split; [reflexivity |].
      apply elem_of_seqZ. lia.
    + apply elem_of_seqZ. lia.
Qed.

Lemma NoDup_block (r0 c0 h w : Z) : NoDup (block r0 c0 h w).
Proof.
  unfold block. apply NoDup_bind.
  - intros r1 r2 [r c] _ _ H1 H2.
    apply list_elem_of_fmap in H1, H2.
    destruct H1 as (c1 & E1 & _), H2 as (c2 & E2 & _). congruence.
  - intros r _. apply NoDup_fmap_2; [| apply NoDup_seqZ].
    intros c1 c2 E. congruence.
  - apply NoDup_seqZ.
Qed.

Lemma length_bind_const {A B : Type} (f : A -> list B) (m : nat) (l : list A) :
  (forall x : A, length (f x) = m) -> length (l ≫= f) = (length l * m)%nat.
Proof.
  intros Hf. induction l as [| x l IH]; [reflexivity |].
  rewrite bind_cons, length_app, Hf, IH. cbn. reflexivity.
Qed.

Lemma length_block (r0 c0 h w : Z) :
  length (block r0 c0 h w) = (Z.to_nat h * Z.to_nat w)%nat.
Proof.
  unfold block. rewrite (length_bind_const _ (Z.to_nat w)).
  - rewrite length_seqZ. reflexivity.
  - intros r. rewrite length_fmap, length_seqZ. reflexivity.
Qed.

(** Position [k] of a block, counting from 0: row [k / w], column
    [k mod w]. *)
Lemma lookup_block (h : nat) :
  forall (r0 c0 w : Z) (k : nat),
    0 < w -> Z.of_nat k < Z.of_nat h * w ->
    block r0 c0 (Z.of_nat h) w !! k
    = Some (r0 + Z.of_nat k / w, c0 + Z.of_nat k mod w).
Proof.
  induction h as [| h IH]; intros r0 c0 w k Hw Hk; [lia |].
  rewrite block_cons by lia.
  replace (Z.of_nat (S h) - 1) with (Z.of_nat h) by lia.
  destruct (Z.lt_ge_cases (Z.of_nat k) w) as [Hlt | Hge].
  - rewrite lookup_app_l by (rewrite length_fmap, length_seqZ; lia).
    rewrite list_lookup_fmap, lookup_seqZ_lt by lia. cbn [fmap option_fmap option_map].
    rewrite Z.div_small, Z.mod_small by lia. do 2 f_equal. lia.
  - rewrite lookup_app_r by (rewrite length_fmap, length_seqZ; lia).
    rewrite length_fmap, length_seqZ.
    rewrite IH by lia. do 2 f_equal.
    + replace (Z.of_nat (k - Z.to_nat w)) with (Z.of_nat k - w) by lia.
      replace (Z.of_nat k) with (Z.of_nat k - w + 1 * w) at 2 by lia.
      rewrite Z.div_add by lia. lia.
    + replace (Z.of_nat (k - Z.to_nat w)) with (Z.of_nat k - w) by lia.
      replace (Z.of_nat k) with (Z.of_nat k - w + 1 * w) at 2 by lia.
      rewrite Z.mod_add by lia. reflexivity.
Qed.

Section Linear.

Variable image : Image.
Let W : Z := width image.
Let H : Z := height image.

Lemma linear_step (r c tr tc : Z) :
  r <> H ->
  next_byte image 0 {| cur_r := r; cur_c := c; cur_tr := tr; cur_tc := tc |}
  = (Some (r, c),
     if c + 1 >=? W
     then {| cur_r := r + 1; cur_c := 0; cur_tr := tr; cur_tc := tc |}
     else {| cur_r := r; cur_c := c + 1; cur_tr := tr; cur_tc := tc |}).
Proof.
  intros Hr. unfold next_byte. cbn.
  apply Z.eqb_neq in Hr. fold H. rewrite Hr. fold W.
  destruct (c + 1 >=? W); reflexivity.
Qed.

(** The rest of a row, from column [c] on. *)
Lemma linear_row (n : nat) :
  forall r c tr tc : Z,
    r <> H -> c + Z.of_nat (S n) = W ->
    steps image 0
      {| cur_r := r; cur_c := c; cur_tr := tr; cur_tc := tc |}
      (pair r <$> seqZ c (Z.of_nat (S n)))
      {| cur_r := r + 1; cur_c := 0; cur_tr := tr; cur_tc := tc |}.
Proof.
  induction n as [| n IH]; intros r c tr tc Hr Hc;
    rewrite seqZ_cons by lia; cbn [fmap list_fmap];
    (eapply steps_cons; [apply linear_step; exact Hr |]).
  - replace (c + 1 >=? W) with true
      by (symmetry; rewrite Z.geb_leb; apply Z.leb_le; lia).
    cbn. apply steps_nil.
  - replace (c + 1 >=? W) with false
      by (symmetry; rewrite Z.geb_leb; apply Z.leb_gt; lia).
    replace (Z.pred (Z.of_nat (S (S n)))) with (Z.of_nat (S n)) by lia.
    apply IH; [exact Hr | lia].
Qed.

(** The rows from [r] on. *)
Lemma linear_rows (n : nat) :
  forall r tr tc : Z,
    0 < W -> r + Z.of_nat n = H ->
    steps image 0
      {| cur_r := r; cur_c := 0; cur_tr := tr; cur_tc := tc |}
      (block r 0 (Z.of_nat n) W)
      {| cur_r := H; cur_c := 0; cur_tr := tr; cur_tc := tc |}.
Proof.
  induction n as [| n IH]; intros r tr tc HW Hr.
  - replace r with H by lia. apply steps_nil.
  - rewrite block_cons by lia. eapply steps_app.
    + replace W with (Z.of_nat (S (Z.to_nat (W - 1)))) at 1 by lia.
      apply linear_row; lia.
    + replace (Z.of_nat (S n) - 1) with (Z.of_nat n) by lia.
      apply IH; [exact HW | lia].
Qed.

End Linear.

(** C2. On an image of positive width [W] and height [H], linear traversal
    returns the positions of [row_major W H] (row 0 from left to right, then
    row 1, and so on: the position number [k] is row [k / W], column
    [k mod W]), [W * H] of them, each pair of [0,H) x [0,W) exactly once, and
    [NULL] from then on: the variables it ends with make [next_byte] return
    [NULL] and stay as they are. *)
Theorem linear_traversal (image : Image) :
  0 < width image -> 0 < height image ->
  exists s_end : Cursor,
    (forall fuel : nat,
       (Z.to_nat (width image * height image) < fuel)%nat ->
       drain fuel image 0 cursor0
       = Some (row_major (width image) (height image), s_end))
    /\ next_byte image 0 s_end = (None, s_end)
    /\ length (row_major (width image) (height image))
       = Z.to_nat (width image * height image)
    /\ NoDup (row_major (width image) (height image))
    /\ (forall r c : Z,
          (r, c) ∈ row_major (width image) (height image)
          <-> 0 <= r < height image /\ 0 <= c < width image)
    /\ (forall k : nat,
          Z.of_nat k < width image * height image ->
          row_major (width image) (height image) !! k
          = Some (Z.of_nat k / width image, Z.of_nat k mod width image)).
Proof.
  intros HW HH.
  assert (Hlen : length (row_major (width image) (height image))
                 = Z.to_nat (width image * height image)).
  { unfold row_major. rewrite length_block. lia. }
  exists {| cur_r := height image; cur_c := 0; cur_tr := 0; cur_tc := 0 |}.
  split; [| split; [| split; [| split; [| split]]]].
  - intros fuel Hfuel. apply steps_drain.
    + pose proof (linear_rows image (Z.to_nat (height image)) 0 0 0 HW
                    ltac:(lia)) as Hrun.
      rewrite Z2Nat.id in Hrun by lia. exact Hrun.
    + apply next_byte_end.
    + rewrite Hlen. exact Hfuel.
  - apply next_byte_end.
  - exact Hlen.
  - apply NoDup_block.
  - intros r c. unfold row_major. rewrite elem_of_block. lia.
  - intros k Hk. unfold row_major.
    pose proof (lookup_block (Z.to_nat (height image)) 0 0 (width image) k HW)
      as Hlook.
    rewrite Z2Nat.id in Hlook by lia. rewrite Hlook by lia.
    rewrite !Z.add_0_l. reflexivity.
Qed.

Lemma linear_traversal_witness :
  exists s_end : Cursor,
    drain 7 (solid_image 3 2 [255; 0; 0]) 0 cursor0
    = Some ([(0, 0); (0, 1); (0, 2); (1, 0); (1, 1); (1, 2)], s_end).
Proof.
  destruct (linear_traversal (solid_image 3 2 [255; 0; 0]))
    as (s_end & Hdrain & _); [cbn; lia | cbn; lia |].
  exists s_end. apply (Hdrain 7%nat). cbn. lia.
Defined.

Lemma cursor_eq (r c tr tc r' c' tr' tc' : Z) :
  r = r' -> c = c' -> tr = tr' -> tc = tc' ->
  {| cur_r := r; cur_c := c; cur_tr := tr; cur_tc := tc |}
  = {| cur_r := r'; cur_c := c'; cur_tr := tr'; cur_tc := tc' |}.
Proof. intros. subst. reflexivity. Qed.

Section Tiled.

Variable image : Image.
Variable tileize : Z.
Hypothesis tiled : tileize <> 0.
Let W : Z := width image.
Let H : Z := height image.

(** A call that stays inside the current line of the current tile. *)
Lemma tiled_step_inside (r c tr tc : Z) :
  r <> H -> tc + 1 < 8 ->
  next_byte image tileize
    {| cur_r := r; cur_c := c; cur_tr := tr; cur_tc := tc |}
  = (Some (r, c),
     {| cur_r := r; cur_c := c + 1; cur_tr := tr; cur_tc := tc + 1 |}).
Proof.
  intros Hr Htc. unfold next_byte. cbn.
  apply Z.eqb_neq in Hr. fold H. rewrite Hr.
  rewrite (proj2 (Z.eqb_neq tileize 0) tiled).
  replace (tc + 1 >=? 8) with false
    by (symmetry; rewrite Z.geb_leb; apply Z.leb_gt; lia).
  reflexivity.
Qed.

(** The call for the last pixel of a line that is not the last line of its
    tile: on to the next line of the tile. *)
Lemma tiled_step_line (r c tr : Z) :
  r <> H -> tr + 1 < 8 -> c + 1 - 8 < W ->
  next_byte image tileize
    {| cur_r := r; cur_c := c; cur_tr := tr; cur_tc := 7 |}
  = (Some (r, c),
     {| cur_r := r + 1; cur_c := c + 1 - 8; cur_tr := tr + 1; cur_tc := 0 |}).
Proof.
  intros Hr Htr Hc. unfold next_byte. cbn.
  apply Z.eqb_neq in Hr. fold H. rewrite Hr.
  rewrite (proj2 (Z.eqb_neq tileize 0) tiled).
  change (7 + 1 >=? 8) with true. cbn iota beta.
  replace (tr + 1 >=? 8) with false
    by (symmetry; rewrite Z.geb_leb; apply Z.leb_gt; lia).
  fold W.
  replace (c + 1 - 8 >=? W) with false
    by (symmetry; rewrite Z.geb_leb; apply Z.leb_gt; lia).
  reflexivity.
Qed.

(** The call for the last pixel of a tile: on to the tile to the right,
    or, at the right edge of the image, to the first tile of the next
    tile row. *)
Lemma tiled_step_tile (r c : Z) :
  r <> H ->
  next_byte image tileize
    {| cur_r := r; cur_c := c; cur_tr := 7; cur_tc := 7 |}
  = (Some (r, c),
     if c + 1 - 8 + 8 >=? W
     then {| cur_r := r + 1 - 8 + 8; cur_c := 0; cur_tr := 0; cur_tc := 0 |}
     else {| cur_r := r + 1 - 8; cur_c := c + 1 - 8 + 8;
             cur_tr := 0; cur_tc := 0 |}).
Proof.
  intros Hr. unfold next_byte. cbn.
  apply Z.eqb_neq in Hr. fold H. rewrite Hr.
  rewrite (proj2 (Z.eqb_neq tileize 0) tiled).
  change (7 + 1 >=? 8) with true. cbn iota beta.
  fold W. destruct (c + 1 - 8 + 8 >=? W); reflexivity.
Qed.

(** [n] pixels inside a line. *)
Lemma tiled_inside (n : nat) :
  forall r c tr tc : Z,
    r <> H -> tc + Z.of_nat n < 8 ->
    steps image tileize
      {| cur_r := r; cur_c := c; cur_tr := tr; cur_tc := tc |}
      (pair r <$> seqZ c (Z.of_nat n))
      {| cur_r := r; cur_c := c + Z.of_nat n; cur_tr := tr;
         cur_tc := tc + Z.of_nat n |}.
Proof.
  induction n as [| n IH]; intros r c tr tc Hr Htc.
  - cbn. rewrite !Z.add_0_r. apply steps_nil.
  - rewrite seqZ_cons by lia. cbn [fmap list_fmap].
    eapply steps_cons; [apply tiled_step_inside; [exact Hr | lia] |].
    replace (Z.pred (Z.of_nat (S n))) with (Z.of_nat n) by lia.
    replace (c + Z.of_nat (S n)) with (c + 1 + Z.of_nat n) by lia.
    replace (tc + Z.of_nat (S n)) with (tc + 1 + Z.of_nat n) by lia.
    apply IH; [exact Hr | lia].
Qed.

Lemma line_split (r c : Z) :
  pair r <$> seqZ c 8 = (pair r <$> seqZ c 7) ++ [(r, c + 7)].
Proof.
  change 8 with (7 + 1). rewrite seqZ_app by lia.
  rewrite fmap_app. reflexivity.
Qed.

(** A whole line of a tile, from its first pixel, that is not the last
    line of the tile. *)
Lemma tiled_line (r c tr : Z) :
  r <> H -> tr + 1 < 8 -> c < W ->
  steps image tileize
    {| cur_r := r; cur_c := c; cur_tr := tr; cur_tc := 0 |}
    (pair r <$> seqZ c 8)
    {| cur_r := r + 1; cur_c := c; cur_tr := tr + 1; cur_tc := 0 |}.
Proof.
  intros Hr Htr Hc. rewrite line_split. eapply steps_app.
  - apply (tiled_inside 7); [exact Hr | lia].
  - eapply steps_cons; [| apply steps_nil].
    change (Z.of_nat 7) with 7. change (0 + 7) with 7.
    rewrite tiled_step_line by lia.
    f_equal. apply cursor_eq; lia.
Qed.

(** The last line of a tile. *)
Lemma tiled_last_line (r c : Z) :
  r <> H ->
  steps image tileize
    {| cur_r := r; cur_c := c; cur_tr := 7; cur_tc := 0 |}
    (pair r <$> seqZ c 8)
    (if c + 8 >=? W
     then {| cur_r := r + 1; cur_c := 0; cur_tr := 0; cur_tc := 0 |}
     else {| cur_r := r - 7; cur_c := c + 8; cur_tr := 0; cur_tc := 0 |}).
Proof.
  intros Hr. rewrite line_split. eapply steps_app.
  - apply (tiled_inside 7); [exact Hr | lia].
  - eapply steps_cons; [| apply steps_nil].
    change (Z.of_nat 7) with 7. change (0 + 7) with 7.
    rewrite tiled_step_tile by lia.
    replace (c + 7 + 1 - 8 + 8) with (c + 8) by lia.
    destruct (c + 8 >=? W); f_equal; apply cursor_eq; lia.
Qed.

(** The first [n] lines of a tile, for [n] below 8. *)
Lemma tiled_lines (n : nat) :
  forall r c tr : Z,
    r + Z.of_nat n < H -> 0 <= r -> tr + Z.of_nat n < 8 -> c < W ->
    steps image tileize
      {| cur_r := r; cur_c := c; cur_tr := tr; cur_tc := 0 |}
      (block r c (Z.of_nat n) 8)
      {| cur_r := r + Z.of_nat n; cur_c := c; cur_tr := tr + Z.of_nat n;
         cur_tc := 0 |}.
Proof.
  induction n as [| n IH]; intros r c tr Hr Hr0 Htr Hc.
  - cbn. rewrite !Z.add_0_r. apply steps_nil.
  - rewrite block_cons by lia. eapply steps_app.
    + apply tiled_line; lia.
    + replace (Z.of_nat (S n) - 1) with (Z.of_nat n) by lia.
      replace (r + Z.of_nat (S n)) with (r + 1 + Z.of_nat n) by lia.
      replace (tr + Z.of_nat (S n)) with (tr + 1 + Z.of_nat n) by lia.
      apply IH; lia.
Qed.

Lemma block_split_last (r c : Z) :
  block r c 8 8 = block r c 7 8 ++ (pair (r + 7) <$> seqZ c 8).
Proof.
  unfold block.
  replace (seqZ r 8) with (seqZ r 7 ++ seqZ (r + 7) 1)
    by (symmetry; apply (seqZ_app r 7 1); lia).
  rewrite bind_app. f_equal.
Qed.

(** A whole tile. *)
Lemma tiled_tile (r c : Z) :
  0 <= r -> r + 8 <= H -> c < W ->
  steps image tileize
    {| cur_r := r; cur_c := c; cur_tr := 0; cur_tc := 0 |}
    (block r c 8 8)
    (if c + 8 >=? W
     then {| cur_r := r + 8; cur_c := 0; cur_tr := 0; cur_tc := 0 |}
     else {| cur_r := r; cur_c := c + 8; cur_tr := 0; cur_tc := 0 |}).
Proof.
  intros Hr0 Hr Hc. rewrite block_split_last. eapply steps_app.
  - apply (tiled_lines 7); lia.
  - cbn [Z.of_nat]. change (0 + Z.pos (Pos.of_succ_nat 6)) with 7.
    change (Z.pos (Pos.of_succ_nat 6)) with 7.
    pose proof (tiled_last_line (r + 7) c ltac:(lia)) as Hlast.
    replace (r + 7 + 1) with (r + 8) in Hlast by lia.
    replace (r + 7 - 7) with r in Hlast by lia.
    exact Hlast.
Qed.

(** The tiles of a tile row, from tile column [C] on. *)
Lemma tiled_tile_row (n : nat) :
  forall r C : Z,
    0 <= r -> r + 8 <= H -> 0 <= C -> 8 * (C + Z.of_nat (S n)) = W ->
    steps image tileize
      {| cur_r := r; cur_c := 8 * C; cur_tr := 0; cur_tc := 0 |}
      (seqZ C (Z.of_nat (S n)) ≫= λ C, block r (8 * C) 8 8)
      {| cur_r := r + 8; cur_c := 0; cur_tr := 0; cur_tc := 0 |}.
Proof.
  induction n as [| n IH]; intros r C Hr0 Hr HC HW;
    rewrite seqZ_cons by lia; rewrite bind_cons;
    (eapply steps_app; [apply tiled_tile; lia |]).
  - replace (8 * C + 8 >=? W) with true
      by (symmetry; rewrite Z.geb_leb; apply Z.leb_le; lia).
    cbn. apply steps_nil.
  - replace (8 * C + 8 >=? W) with false
      by (symmetry; rewrite Z.geb_leb; apply Z.leb_gt; lia).
    replace (Z.pred (Z.of_nat (S (S n)))) with (Z.of_nat (S n)) by lia.
    replace (8 * C + 8) with (8 * Z.succ C) by lia.
    apply IH; lia.
Qed.

(** The tile rows from tile row [R] on. *)
Lemma tiled_tile_rows (n : nat) :
  forall R : Z,
    0 < W -> W mod 8 = 0 -> 0 <= R -> 8 * (R + Z.of_nat n) = H ->
    steps image tileize
      {| cur_r := 8 * R; cur_c := 0; cur_tr := 0; cur_tc := 0 |}
      (seqZ R (Z.of_nat n) ≫= λ R,
         seqZ 0 (W / 8) ≫= λ C, block (8 * R) (8 * C) 8 8)
      {| cur_r := H; cur_c := 0; cur_tr := 0; cur_tc := 0 |}.
Proof.
  induction n as [| n IH]; intros R HW HW8 HR HH.
  - assert (E : 8 * R = H) by (rewrite <- HH; cbn [Z.of_nat]; ring).
    rewrite E. apply steps_nil.
  - rewrite (seqZ_cons R) by lia. rewrite bind_cons. eapply steps_app.
    + assert (HWd : W = 8 * (W / 8)) by (apply Z.div_exact; lia).
      pose proof (tiled_tile_row (Z.to_nat (W / 8 - 1)) (8 * R) 0) as Hrow.
      replace (Z.of_nat (S (Z.to_nat (W / 8 - 1)))) with (W / 8) in Hrow
        by lia.
      apply Hrow; lia.
    + replace (Z.pred (Z.of_nat (S n))) with (Z.of_nat n) by lia.
      replace (8 * R + 8) with (8 * Z.succ R) by lia.
      apply IH; lia.
Qed.

End Tiled.

Lemma linear_drain (image : Image) (fuel : nat) :
  0 < width image -> 0 < height image ->
  (Z.to_nat (width image * height image) < fuel)%nat ->
  drain fuel image 0 cursor0
  = Some (row_major (width image) (height image),
          {| cur_r := height image; cur_c := 0; cur_tr := 0; cur_tc := 0 |}).
Proof.
  intros HW HH Hfuel. apply steps_drain.
  - pose proof (linear_rows image (Z.to_nat (height image)) 0 0 0 HW
                  ltac:(lia)) as Hrun.
    rewrite Z2Nat.id in Hrun by lia. exact Hrun.
  - apply next_byte_end.
  - unfold row_major. rewrite length_block. lia.
Qed.

Lemma length_tile_major (W H : Z) :
  0 < W -> 0 < H -> W mod 8 = 0 -> H mod 8 = 0 ->
  length (tile_major W H) = Z.to_nat (W * H).
Proof.
  intros HW HH HW8 HH8. unfold tile_major.
  rewrite (length_bind_const _ (Z.to_nat (W / 8) * 64)%nat).
  - rewrite length_seqZ.
    assert (HWd : W = 8 * (W / 8)) by (apply Z.div_exact; lia).
    assert (HHd : H = 8 * (H / 8)) by (apply Z.div_exact; lia).
    apply Nat2Z.inj. rewrite !Nat2Z.inj_mul, !Z2Nat.id by lia.
    rewrite HWd, HHd at 2. change (Z.of_nat 64) with 64. ring.
  - intros R. rewrite (length_bind_const _ 64%nat).
    + rewrite length_seqZ. reflexivity.
    + intros C. rewrite length_block. reflexivity.
Qed.

Lemma elem_of_tile_major (W H r c : Z) :
  0 < W -> 0 < H -> W mod 8 = 0 -> H mod 8 = 0 ->
  (r, c) ∈ tile_major W H <-> 0 <= r < H /\ 0 <= c < W.
Proof.
  intros HW HH HW8 HH8.
  assert (HWd : W = 8 * (W / 8)) by (apply Z.div_exact; lia).
  assert (HHd : H = 8 * (H / 8)) by (apply Z.div_exact; lia).
  unfold tile_major. rewrite list_elem_of_bind. split.
  - intros (R & Hin & HR). apply list_elem_of_bind in Hin.
    destruct Hin as (C & Hin & HC). apply elem_of_block in Hin.
    apply elem_of_seqZ in HR, HC. lia.
  - intros (Hr & Hc). exists (r / 8). split.
    + apply list_elem_of_bind. exists (c / 8). split.
      * apply elem_of_block.
        pose proof (Z.div_mod r 8 ltac:(lia)).
        pose proof (Z.mod_pos_bound r 8 ltac:(lia)).
        pose proof (Z.div_mod c 8 ltac:(lia)).
        pose proof (Z.mod_pos_bound c 8 ltac:(lia)). lia.
      * apply elem_of_seqZ. split; [apply Z.div_pos; lia |].
        rewrite Z.add_0_l. apply Z.div_lt_upper_bound; lia.
    + apply elem_of_seqZ. split; [apply Z.div_pos; lia |].
      rewrite Z.add_0_l. apply Z.div_lt_upper_bound; lia.
Qed.

Lemma NoDup_tile_major (W H : Z) : NoDup (tile_major W H).
Proof.
  unfold tile_major. apply NoDup_bind; [| | apply NoDup_seqZ].
  - intros R1 R2 [r c] _ _ H1 H2.
    apply list_elem_of_bind in H1, H2.
    destruct H1 as (C1 & H1 & _), H2 as (C2 & H2 & _).
    apply elem_of_block in H1, H2. lia.
  - intros R _. apply NoDup_bind; [| | apply NoDup_seqZ].
    + intros C1 C2 [r c] _ _ H1 H2. apply elem_of_block in H1, H2. lia.
    + intros C _. apply NoDup_block.
Qed.

Lemma tiled_drain (image : Image) (tileize : Z) (fuel : nat) :
  tileize <> 0 ->
  0 < width image -> 0 < height image ->
  width image mod 8 = 0 -> height image mod 8 = 0 ->
  (Z.to_nat (width image * height image) < fuel)%nat ->
  drain fuel image tileize cursor0
  = Some (tile_major (width image) (height image),
          {| cur_r := height image; cur_c := 0; cur_tr := 0; cur_tc := 0 |}).
Proof.
  intros Ht HW HH HW8 HH8 Hfuel. apply steps_drain.
  - assert (HHd : height image = 8 * (height image / 8))
      by (apply Z.div_exact; lia).
    pose proof (tiled_tile_rows image tileize Ht
                  (Z.to_nat (height image / 8)) 0 HW HW8 ltac:(lia)) as Hrun.
    rewrite Z2Nat.id in Hrun by lia. apply Hrun. lia.
  - apply next_byte_end.
  - rewrite length_tile_major by assumption. exact Hfuel.
Qed.

(** C3. On an image whose width [W] and height [H] are positive multiples of
    8, tiled traversal returns the positions of [tile_major W H] (tile rows
    from the top, tiles from the left, each tile row-major) and then [NULL];
    the list holds each pair of [0,H) x [0,W) exactly once.  For an 8 by 8
    image this is what linear traversal returns, and for a 16 by 8 image
    every position of the left tile (columns below 8) is returned before
    every position of the right tile. *)
Theorem tiled_traversal (image : Image) (tileize : Z) :
  tileize <> 0 ->
  0 < width image -> 0 < height image ->
  width image mod 8 = 0 -> height image mod 8 = 0 ->
  exists s_end : Cursor,
    (forall fuel : nat,
       (Z.to_nat (width image * height image) < fuel)%nat ->
       drain fuel image tileize cursor0
       = Some (tile_major (width image) (height image), s_end))
    /\ next_byte image tileize s_end = (None, s_end)
    /\ NoDup (tile_major (width image) (height image))
    /\ (forall r c : Z,
          (r, c) ∈ tile_major (width image) (height image)
          <-> 0 <= r < height image /\ 0 <= c < width image)
    /\ (width image = 8 -> height image = 8 ->
        forall fuel : nat, (64 < fuel)%nat ->
          drain fuel image tileize cursor0 = drain fuel image 0 cursor0)
    /\ (width image = 16 -> height image = 8 ->
        forall (i j : nat) (p q : Z * Z),
          tile_major (width image) (height image) !! i = Some p ->
          tile_major (width image) (height image) !! j = Some q ->
          p.2 < 8 -> 8 <= q.2 -> (i < j)%nat).
Proof.
  intros Ht HW HH HW8 HH8.
  exists {| cur_r := height image; cur_c := 0; cur_tr := 0; cur_tc := 0 |}.
  split; [| split; [| split; [| split; [| split]]]].
  - intros fuel Hfuel. apply tiled_drain; assumption.
  - apply next_byte_end.
  - apply NoDup_tile_major.
  - intros r c. apply elem_of_tile_major; assumption.
  - intros EW EH fuel Hfuel.
    rewrite tiled_drain, linear_drain by (try assumption; rewrite EW, EH; lia).
    rewrite EW, EH. reflexivity.
  - intros EW EH i j [pr pc] [qr qc] Hi Hj Hp Hq. rewrite EW, EH in Hi, Hj.
    change (tile_major 16 8) with (block 0 0 8 8 ++ block 0 8 8 8) in Hi, Hj.
    cbn [snd] in Hp, Hq.
    apply lookup_app_Some in Hi, Hj.
    rewrite length_block in Hi, Hj.
    destruct Hi as [Hi | [_ Hi]].
    + apply lookup_lt_Some in Hi. rewrite length_block in Hi.
      destruct Hj as [Hj | [Hj _]]; [| lia].
      apply list_elem_of_lookup_2, elem_of_block in Hj. lia.
    + apply list_elem_of_lookup_2, elem_of_block in Hi. lia.
Qed.

Lemma tiled_traversal_witness :
  exists s_end : Cursor,
    drain 129 (solid_image 16 8 [255; 0; 0]) 1 cursor0
    = Some (block 0 0 8 8 ++ block 0 8 8 8, s_end).
Proof.
  destruct (tiled_traversal (solid_image 16 8 [255; 0; 0]) 1)
    as (s_end & Hdrain & _); [lia | cbn; lia | cbn; lia | reflexivity
                              | reflexivity |].
  exists s_end. apply (Hdrain 129%nat). cbn. lia.
Defined.

(** ** The conversion loop *)

(** The [while] loop of [png2gba] is the loop body applied to the positions
    [next_byte] returns. *)
Lemma png2gba_loop_drain (image : Image) (palette tileize : Z) (fuel : nat) :
  forall (s s1 : Cursor) (ps : list (Z * Z)) (st : Palette * Z * list out_item),
    drain fuel image tileize s = Some (ps, s1) ->
    png2gba_loop fuel image palette tileize s st
    = (let* st1 := png2gba_pixels image palette ps st in Ret (s1, st1)).
Proof.
  induction fuel as [| fuel IH]; intros s s1 ps st Hdrain; [discriminate |].
  cbn [drain] in Hdrain. cbn [png2gba_loop].
  destruct (next_byte image tileize s) as [[pos |] s'].
  - destruct (drain fuel image tileize s') as [[ps' s''] |] eqn:Hrest;
      [| discriminate].
    inversion Hdrain; subst; clear Hdrain. cbn [png2gba_pixels].
    destruct (png2gba_pixel image palette pos st) as [st' | | |]; cbn [bind];
      try reflexivity.
    apply IH. exact Hrest.
  - inversion Hdrain; subst. reflexivity.
Qed.

Lemma png2gba_loop_ret (image : Image) (palette tileize : Z) (fuel : nat) :
  forall (s s1 : Cursor) (st st1 : Palette * Z * list out_item),
    png2gba_loop fuel image palette tileize s st = Ret (s1, st1) ->
    exists ps : list (Z * Z),
      drain fuel image tileize s = Some (ps, s1)
      /\ png2gba_pixels image palette ps st = Ret st1.
Proof.
  induction fuel as [| fuel IH]; intros s s1 st st1 Hloop; [discriminate |].
  cbn [png2gba_loop] in Hloop. cbn [drain].
  destruct (next_byte image tileize s) as [[pos |] s'].
  - destruct (png2gba_pixel image palette pos st) as [st' | | |] eqn:Hpx;
      try discriminate.
    cbn [bind] in Hloop. destruct (IH _ _ _ _ Hloop) as (ps & Hdrain & Hps).
    exists (pos :: ps). rewrite Hdrain. split; [reflexivity |].
    cbn [png2gba_pixels]. rewrite Hpx. exact Hps.
  - inversion Hloop; subst. exists []. split; reflexivity.
Qed.

(** What one pass through the loop body does, [k] values being on the
    current line. *)
Lemma png2gba_pixel_ret (image : Image) (palette : Z) (pos : Z * Z)
    (pal : Palette) (k : nat) (out : list out_item)
    (st' : Palette * Z * list out_item) :
  png2gba_pixel image palette pos (pal, Z.of_nat k, out) = Ret st' ->
  exists (col v : Z) (pal' : Palette),
    pixel_color image pos = Some col
    /\ (if palette =? 0 then v = col /\ pal' = pal
        else insert_palette col pal = Ret (v, pal'))
    /\ st' = (pal',
              (if (8 <=? S k)%nat then 0 else Z.of_nat (S k)),
              out ++ (if (k =? 0)%nat then [Str "    "] else [])
                  ++ [pixel_item palette v; Str ", "]
                  ++ (if (8 <=? S k)%nat then [Str nl] else [])).
Proof.
  unfold png2gba_pixel, pixel_color, pixel_item.
  destruct (read_pixel image pos) as [[[red green] blue] |]; [| discriminate].
  cbn [of_option bind].
  set (color := quantize red green blue).
  assert (Ek : (Z.of_nat k =? 0) = (k =? 0)%nat).
  { destruct k; reflexivity. }
  assert (En : (Z.of_nat k + 1 >=? TILE_SIZE) = (8 <=? S k)%nat).
  { unfold TILE_SIZE. rewrite Z.geb_leb.
    destruct (Nat.leb_spec 8 (S k)); [apply Z.leb_le | apply Z.leb_gt]; lia. }
  rewrite Ek, En.
  destruct (palette =? 0) eqn:Hp.
  - cbn [bind]. intros Hret. exists color, color, pal.
    split; [reflexivity |]. split; [auto |].
    destruct (k =? 0)%nat, (8 <=? S k)%nat eqn:E8; inversion Hret; subst;
      rewrite <- ?app_assoc; cbn [app];
      repeat f_equal; lia.
  - destruct (insert_palette color pal) as [[index pal'] | | |] eqn:Hins;
      try discriminate.
    cbn [bind]. intros Hret. exists color, index, pal'.
    split; [reflexivity |]. split; [exact Hins |].
    destruct (k =? 0)%nat, (8 <=? S k)%nat eqn:E8; inversion Hret; subst;
      rewrite <- ?app_assoc; cbn [app];
      repeat f_equal; lia.
Qed.

(** The colours of the pixels at [ps], and the numbers written for them:
    the colours themselves, or the indices [insert_palette] returns for
    them one after the other. *)
Lemma png2gba_pixels_ret (image : Image) (palette : Z) (ps : list (Z * Z)) :
  forall (pal pal' : Palette) (k : nat) (ctl' : Z) (out out' : list out_item),
    (k < 8)%nat ->
    png2gba_pixels image palette ps (pal, Z.of_nat k, out)
    = Ret (pal', ctl', out') ->
    exists cols vals : list Z,
      Forall2 (fun pos col => pixel_color image pos = Some col) ps cols
      /\ (if palette =? 0 then vals = cols /\ pal' = pal
          else insert_all cols pal = Ret (vals, pal'))
      /\ out' = out ++ lay 8 k (pixel_entries palette vals).
Proof.
  induction ps as [| pos ps IH]; intros pal pal' k ctl' out out' Hk Hret;
    cbn [png2gba_pixels] in Hret.
  - inversion Hret; subst. exists [], [].
    split; [constructor |]. split.
    + destruct (palette =? 0); auto.
    + cbn. symmetry. apply app_nil_r.
  - destruct (png2gba_pixel image palette pos (pal, Z.of_nat k, out))
      as [st1 | | |] eqn:Hpx; try discriminate.
    cbn [bind] in Hret.
    destruct (png2gba_pixel_ret _ _ _ _ _ _ _ Hpx)
      as (col & v & pal1 & Hcol & Hv & ->).
    assert (Hnext : exists k' : nat,
               (k' < 8)%nat
               /\ (if (8 <=? S k)%nat then 0 else Z.of_nat (S k)) = Z.of_nat k'
               /\ k' = if (8 <=? S k)%nat then 0%nat else S k).
    { destruct (Nat.leb_spec 8 (S k)).
      - exists 0%nat. repeat split; lia.
      - exists (S k). repeat split; lia. }
    destruct Hnext as (k' & Hk' & Ek' & Ek'').
    rewrite Ek' in Hret.
    destruct (IH _ _ _ _ _ _ Hk' Hret) as (cols & vals & Hcols & Hvals & ->).
    exists (col :: cols), (v :: vals).
    split; [constructor; assumption |]. split.
    + destruct (palette =? 0).
      * destruct Hv as [-> ->], Hvals as [-> ->]. auto.
      * cbn [insert_all]. rewrite Hv. cbn [bind]. rewrite Hvals. reflexivity.
    + unfold pixel_entries. cbn [fmap list_fmap lay].
      fold (pixel_entries palette vals). rewrite Ek''.
      rewrite <- !app_assoc. f_equal. f_equal. cbn [app]. do 2 f_equal.
      destruct (8 <=? S k)%nat; reflexivity.
Qed.

(** ** Layout in lines *)

Lemma mjoin_cons {A : Type} (e : list A) (l : list (list A)) :
  mjoin (e :: l) = e ++ mjoin l.
Proof. reflexivity. Qed.

Lemma mjoin_nil {A : Type} : mjoin ([] : list (list A)) = [].
Proof. reflexivity. Qed.

(** [lay] fills the current line and starts again on the next one. *)
Lemma lay_fill (n : nat) (es : list (list out_item)) :
  forall k : nat,
    (k < n)%nat ->
    lay n k es
    = match es with
      | [] => []
      | _ :: _ =>
          (if (k =? 0)%nat then [Str "    "] else [])
          ++ mjoin (take (n - k) es)
          ++ (if (n - k <=? length es)%nat
              then Str nl :: lay n 0 (drop (n - k) es) else [])
      end.
Proof.
  induction es as [| e es IH]; intros k Hk; [reflexivity |].
  cbn [lay]. f_equal.
  destruct (Nat.leb_spec n (S k)) as [Hfull | Hroom].
  - replace (n - k)%nat with 1%nat by lia.
    cbn [take drop length].
    rewrite firstn_O, skipn_O, mjoin_cons, mjoin_nil, app_nil_r.
    reflexivity.
  - rewrite (IH (S k) Hroom).
    replace (n - k)%nat with (S (n - S k)) by lia.
    cbn [take drop length]. rewrite mjoin_cons, <- app_assoc. f_equal.
    destruct es as [| e' es'].
    + rewrite take_nil, mjoin_nil. cbn [length app].
      destruct (Nat.leb_spec (S (n - S k)) 1); [lia | reflexivity].
    + reflexivity.
Qed.

Lemma lay_chunks (n : nat) (fuel : nat) :
  (0 < n)%nat ->
  forall es : list (list out_item),
    (length es <= fuel)%nat ->
    lay n 0 es = mjoin (line n <$> chunks fuel n es).
Proof.
  intros Hn. induction fuel as [| fuel IH]; intros es Hlen.
  - destruct es; [reflexivity | cbn in Hlen; lia].
  - destruct es as [| e es]; [reflexivity |].
    rewrite lay_fill by exact Hn. cbn [chunks Nat.eqb].
    rewrite fmap_cons, mjoin_cons, Nat.sub_0_r.
    rewrite <- (IH (drop n (e :: es)))
      by (rewrite length_drop; cbn [length] in *; lia).
    unfold line. rewrite length_take.
    destruct (Nat.leb_spec n (length (e :: es))) as [Hfull | Hshort].
    + rewrite Nat.min_l by lia. rewrite Nat.eqb_refl.
      cbn [app]. f_equal. rewrite <- app_assoc. reflexivity.
    + rewrite Nat.min_r by lia.
      replace (length (e :: es) =? n)%nat with false
        by (symmetry; apply Nat.eqb_neq; lia).
      rewrite (drop_ge (e :: es) n) by lia.
      cbn [lay app]. rewrite !app_nil_r. reflexivity.
Qed.

(** Written entry by entry from the start of a line, the entries come out
    [n] to a line. *)
Lemma lay_lines (n : nat) (es : list (list out_item)) :
  (0 < n)%nat -> lay n 0 es = lines n es.
Proof. intros Hn. unfold lines. apply lay_chunks; [exact Hn | lia]. Qed.

(** ** The colour table *)

Lemma palette_rows_spec (cs : list Z) :
  length cs = Z.to_nat PALETTE_MAX ->
  forall (fuel i k : nat) (out : list out_item),
    (i <= 256)%nat -> (256 - i < fuel)%nat -> (k < 9)%nat ->
    palette_rows fuel cs (Z.of_nat i) (Z.of_nat k) out
    = Ret (out ++ lay 9 k (drop i (table_entries cs))).
Proof.
  intros Hlen. change (Z.to_nat PALETTE_MAX) with 256%nat in Hlen.
  induction fuel as [| fuel IH]; intros i k out Hi Hfuel Hk; [lia |].
  cbn [palette_rows]. unfold PALETTE_MAX.
  destruct (Z.ltb_spec (Z.of_nat i) 256) as [Hlt | Hge].
  - destruct (lookup_lt_is_Some_2 cs i) as [v Hv]; [lia |].
    rewrite Nat2Z.id, Hv. cbn [of_option bind].
    rewrite (drop_S (table_entries cs) (if (i =? 255)%nat then [Fmt_0x04x v]
                                         else [Fmt_0x04x v; Str ", "]) i)
      by (unfold table_entries; rewrite list_lookup_imap, Hv; reflexivity).
    cbn [lay].
    assert (Ek : (Z.of_nat k =? 0) = (k =? 0)%nat) by (destruct k; reflexivity).
    assert (Ei : (Z.of_nat i =? 256 - 1) = (i =? 255)%nat).
    { destruct (Nat.eqb_spec i 255); [apply Z.eqb_eq | apply Z.eqb_neq]; lia. }
    assert (En : (Z.of_nat k + 1 >? 8) = (9 <=? S k)%nat).
    { rewrite Z.gtb_ltb.
      destruct (Nat.leb_spec 9 (S k)); [apply Z.ltb_lt | apply Z.ltb_ge]; lia. }
    rewrite Ek, Ei, En.
    replace (Z.of_nat i + 1) with (Z.of_nat (S i)) by lia.
    replace (Z.of_nat k + 1) with (Z.of_nat (S k)) by lia.
    destruct (Nat.leb_spec 9 (S k)) as [Hfull | Hroom].
    + rewrite (IH (S i) 0%nat) by lia.
      destruct (k =? 0)%nat, (i =? 255)%nat; cbn [negb app];
        rewrite <- ?app_assoc; reflexivity.
    + rewrite (IH (S i) (S k)) by lia.
      destruct (k =? 0)%nat, (i =? 255)%nat; cbn [negb app];
        rewrite <- ?app_assoc; reflexivity.
  - rewrite drop_ge by (unfold table_entries; rewrite length_imap; lia).
    cbn [lay]. rewrite app_nil_r. reflexivity.
Qed.

(** ** The whole of [png2gba] *)

(** What a returning call of [png2gba] has written and left behind. *)
Lemma png2gba_ret (fuel : nat) (image : Image) (pal0 pal : Palette)
    (s0 s1 : Cursor) (out0 out : list out_item) (name : string)
    (palette tileize : Z) :
  palette_ok pal0 ->
  png2gba fuel image pal0 s0 out0 name palette tileize = Ret (out, pal, s1) ->
  exists (ps : list (Z * Z)) (cols vals : list Z),
    drain fuel image tileize s0 = Some (ps, s1)
    /\ Forall2 (fun pos col => pixel_color image pos = Some col) ps cols
    /\ (if palette =? 0 then vals = cols /\ pal = pal0
        else insert_all cols pal0 = Ret (vals, pal))
    /\ palette_ok pal
    /\ out = out0 ++ lines 8 (pixel_entries palette vals) ++ postamble
             ++ (if palette =? 0 then []
                 else table_head name
                      ++ lines 9 (table_entries (colors pal)) ++ postamble).
Proof.
  intros Hok Hret. unfold png2gba in Hret.
  destruct (png2gba_loop fuel image palette tileize s0 (pal0, 0, out0))
    as [[s [[pal1 ctl] out1]] | | |] eqn:Hloop; try discriminate.
  cbn [bind] in Hret.
  destruct (png2gba_loop_ret _ _ _ _ _ _ _ _ Hloop) as (ps & Hdrain & Hps).
  destruct (png2gba_pixels_ret image palette ps pal0 pal1 0 ctl out0 out1
              ltac:(lia) Hps) as (cols & vals & Hcols & Hvals & ->).
  rewrite lay_lines in Hret by lia.
  assert (Hok1 : palette_ok pal1).
  { destruct (palette =? 0).
    - destruct Hvals as [_ ->]. exact Hok.
    - apply (insert_all_frame _ _ _ _ Hok Hvals). }
  exists ps, cols, vals.
  destruct (palette =? 0) eqn:Hp; cbn [negb] in Hret.
  - inversion Hret; subst; clear Hret.
    repeat (split; [assumption || reflexivity |]).
    rewrite <- !app_assoc, app_nil_r. reflexivity.
  - rewrite (palette_rows_spec (colors pal1) (proj1 Hok1)
               (S (Z.to_nat PALETTE_MAX)) 0 0) in Hret
      by (unfold PALETTE_MAX; lia).
    cbn [bind] in Hret. inversion Hret; subst; clear Hret.
    repeat (split; [assumption || reflexivity |]).
    rewrite drop_0, lay_lines by lia.
    unfold postamble, table_head. rewrite <- !app_assoc. reflexivity.
Qed.

(** ** Numbers as text *)

Lemma append_cons (a : ascii) (s1 s2 : string) :
  String a s1 +:+ s2 = String a (s1 +:+ s2).
Proof. reflexivity. Qed.

Lemma append_assoc (s1 s2 s3 : string) :
  (s1 +:+ s2) +:+ s3 = s1 +:+ (s2 +:+ s3).
Proof.
  induction s1 as [| a s1 IH]; [reflexivity |].
  rewrite !append_cons. f_equal. exact IH.
Qed.

Lemma length_append (s1 s2 : string) :
  String.length (s1 +:+ s2) = (String.length s1 + String.length s2)%nat.
Proof.
  induction s1 as [| a s1 IH]; [reflexivity |].
  rewrite append_cons. cbn [String.length]. rewrite IH. reflexivity.
Qed.

Lemma zeros_snoc (n : nat) :
  zeros (S n) = zeros n +:+ String "0"%char EmptyString.
Proof.
  induction n as [| n IH]; [reflexivity |].
  cbn [zeros]. rewrite append_cons. f_equal. exact IH.
Qed.

(** The last of the [S w] digits is the digit of the units. *)
Lemma hex_fixed_snoc (upper : bool) (w : nat) (v : Z) :
  hex_fixed upper (S w) v
  = hex_fixed upper w (v / 16) +:+ String (hex_char upper (v mod 16)) EmptyString.
Proof.
  induction w as [| w IH].
  - cbn [hex_fixed]. change (16 ^ Z.of_nat 0) with 1. rewrite Z.div_1_r.
    reflexivity.
  - change (hex_fixed upper (S (S w)) v)
      with (String (hex_char upper ((v / 16 ^ Z.of_nat (S w)) mod 16))
              (hex_fixed upper (S w) v)).
    rewrite IH. cbn [hex_fixed String.append]. do 2 f_equal.
    rewrite Z.div_div by lia. do 2 f_equal.
    rewrite Nat2Z.inj_succ, Z.pow_succ_r by lia. reflexivity.
Qed.

Lemma hex_fixed_0 (upper : bool) (w : nat) : hex_fixed upper w 0 = zeros w.
Proof.
  induction w as [| w IH]; [reflexivity |].
  cbn [hex_fixed zeros]. rewrite IH, Z.div_0_l by lia. reflexivity.
Qed.

(** The digits [printf] writes are those of [hex_fixed] without the leading
    zeros. *)
Lemma hex_digits_fixed (upper : bool) (w : nat) :
  forall (v : Z) (fuel : nat) (acc : string),
    0 <= v < 16 ^ Z.of_nat (S w) -> v < 16 ^ Z.of_nat (S fuel) ->
    exists s : string,
      hex_digits (S fuel) upper v acc = s +:+ acc
      /\ (String.length s <= S w)%nat
      /\ zeros (S w - String.length s) +:+ s = hex_fixed upper (S w) v.
Proof.
  induction w as [| w IH]; intros v fuel acc Hv Hfuel;
    cbn [hex_digits]; rewrite hex_fixed_snoc.
  - change (16 ^ Z.of_nat 1) with 16 in Hv.
    rewrite (Z.div_small v 16) by lia. cbn [Z.eqb].
    exists (String (hex_char upper (v mod 16)) EmptyString).
    repeat split; cbn; lia.
  - destruct (Z.eqb_spec (v / 16) 0) as [E | E].
    + exists (String (hex_char upper (v mod 16)) EmptyString).
      split; [reflexivity |]. split; [cbn; lia |].
      rewrite E, hex_fixed_0. cbn [String.length].
      replace (S (S w) - 1)%nat with (S w) by lia. reflexivity.
    + assert (Hq : 0 <= v / 16 < 16 ^ Z.of_nat (S w)).
      { split; [apply Z.div_pos; lia |].
        apply Z.div_lt_upper_bound; [lia |].
        rewrite (Nat2Z.inj_succ (S w)), Z.pow_succ_r in Hv by lia. lia. }
      assert (Hqf : v / 16 < 16 ^ Z.of_nat fuel).
      { apply Z.div_lt_upper_bound; [lia |].
        rewrite Nat2Z.inj_succ, Z.pow_succ_r in Hfuel by lia. lia. }
      destruct fuel as [| fuel];
        [change (16 ^ Z.of_nat 0) with 1 in Hqf; lia |].
      destruct (IH (v / 16) fuel
                  (String (hex_char upper (v mod 16)) acc) Hq Hqf)
        as (s & Hs & Hlen & Hfix).
      exists (s +:+ String (hex_char upper (v mod 16)) EmptyString).
      split; [rewrite Hs, append_assoc; reflexivity |].
      rewrite length_append. cbn [String.length].
      split; [lia |].
      replace (S (S w) - (String.length s + 1))%nat
        with (S w - String.length s)%nat by lia.
      rewrite <- append_assoc, Hfix. reflexivity.
Qed.

Lemma append_nil_r (s : string) : s +:+ EmptyString = s.
Proof.
  induction s as [| a s IH]; [reflexivity |].
  rewrite append_cons. f_equal. exact IH.
Qed.

(** [%0wX] and [%0wx] write a number below [16 ^ w] as exactly [w] digits. *)
Lemma printf_hex_fixed (upper : bool) (w : nat) (v : Z) :
  0 <= v < 16 ^ Z.of_nat (S w) ->
  printf_hex upper (S w) v = hex_fixed upper (S w) v.
Proof.
  intros Hv. unfold printf_hex.
  destruct (hex_digits_fixed upper w v (Z.to_nat (Z.log2 v)) EmptyString Hv)
    as (s & Hs & _ & Hfix).
  - destruct (Z.eq_dec v 0) as [-> | Hne]; [reflexivity |].
    pose proof (Z.log2_spec v ltac:(lia)) as [_ Hlog].
    pose proof (Z.log2_nonneg v) as Hnn.
    rewrite Nat2Z.inj_succ, Z2Nat.id by exact Hnn.
    apply Z.lt_le_trans with (2 ^ Z.succ (Z.log2 v)); [exact Hlog |].
    apply Z.pow_le_mono_l. lia.
  - rewrite Hs, append_nil_r. exact Hfix.
Qed.

(** [%04X] and [%04x] write an [unsigned short] as exactly four digits. *)
Lemma printf_hex_4 (upper : bool) (v : Z) :
  0 <= v < 65536 -> printf_hex upper 4 v = hex_fixed upper 4 v.
Proof. intros Hv. apply printf_hex_fixed. exact Hv. Qed.

(** [%02X] writes an [unsigned char] as exactly two digits. *)
Lemma printf_hex_2 (v : Z) :
  0 <= v < 256 -> printf_hex true 2 v = hex_fixed true 2 v.
Proof. intros Hv. apply printf_hex_fixed. exact Hv. Qed.

Lemma quantize_ushort (red green blue : Z) :
  0 <= quantize red green blue < 65536.
Proof. unfold quantize, to_ushort. apply Z.mod_pos_bound. lia. Qed.

Lemma pixel_color_ushort (image : Image) (pos : Z * Z) (col : Z) :
  pixel_color image pos = Some col -> 0 <= col < 65536.
Proof.
  unfold pixel_color.
  destruct (read_pixel image pos) as [[[red green] blue] |]; [| discriminate].
  intros E. inversion E. apply quantize_ushort.
Qed.

(** ** More on runs of insertions *)

(** A returning call leaves the palette as it was or fills the entry at the
    old size. *)
Lemma insert_palette_shape (color : Z) (p p' : Palette) (idx : Z) :
  palette_ok p ->
  insert_palette color p = Ret (idx, p') ->
  p' = p
  \/ p' = {| colors := <[Z.to_nat (used p) := color]> (colors p);
             used := used p + 1;
             max := max p |}.
Proof.
  intros Hok Hins.
  destruct (insert_palette_cases color p Hok)
    as [(k & _ & E) | [(_ & _ & E) | (_ & _ & E)]];
    rewrite E in Hins; inversion Hins; auto.
Qed.

Lemma insert_all_entries (cs : list Z) :
  forall (p p' : Palette) (idxs : list Z),
    palette_ok p ->
    insert_all cs p = Ret (idxs, p') ->
    (Forall (fun c => 0 <= c < 65536) cs ->
     Forall (fun c => 0 <= c < 65536) (colors p) ->
     Forall (fun c => 0 <= c < 65536) (colors p'))
    /\ (forall j : Z, used p' <= j ->
          colors p' !! Z.to_nat j = colors p !! Z.to_nat j).
Proof.
  induction cs as [| c cs IH]; intros p p' idxs Hok Hall; cbn in Hall.
  - inversion Hall; subst. auto.
  - destruct (insert_palette c p) as [[i p1] | | |] eqn:E; try discriminate.
    cbn in Hall.
    destruct (insert_all cs p1) as [[idxs' p2] | | |] eqn:E'; try discriminate.
    cbn in Hall. inversion Hall; subst; clear Hall.
    destruct (insert_palette_ret _ _ _ _ Hok E) as (Hok1 & _).
    destruct (IH _ _ _ Hok1 E') as (Hrange & Habove).
    destruct (insert_all_frame _ _ _ _ Hok1 E') as (_ & _ & Hused & _).
    destruct (insert_palette_shape _ _ _ _ Hok E) as [-> | ->].
    + split.
      * intros Hcs Hp. inversion Hcs; subst. auto.
      * exact Habove.
    + cbn [colors used] in *. split.
      * intros Hcs Hp. inversion Hcs; subst. apply Hrange; [assumption |].
        apply Forall_insert; assumption.
      * intros j Hj. rewrite Habove by exact Hj.
        destruct Hok as (_ & Hu & _). apply list_lookup_insert_ne. lia.
Qed.

Lemma Forall2_chain {A B C : Type} (P : A -> B -> Prop) (Q : B -> C -> Prop)
    (la : list A) :
  forall (lb : list B) (lc : list C),
    Forall2 P la lb -> Forall2 Q lb lc ->
    Forall2 (fun a c => exists b : B, P a b /\ Q b c) la lc.
Proof.
  induction la as [| a la IH]; intros lb lc HP HQ;
    inversion HP; subst; inversion HQ; subst; constructor; eauto.
Qed.

(** ** The emitted file *)

(** C7 (amended). A returning call of [png2gba] has written one number for
    each position [next_byte] returned, eight to a line ([lines 8]), each
    followed by a separator: a colour as [0x] and four upper-case digits in
    direct mode, a palette index as [0x] and two digits in palette mode.  In
    palette mode the colour table follows: all [PALETTE_MAX] = 256 entries of
    the colour array whatever capacity was asked for, nine to a line, each as
    [0x] and four lower-case digits; the entries from [used] on are zero if
    they were zero at the start. *)
Theorem png2gba_emits (fuel : nat) (image : Image) (pal0 pal : Palette)
    (s0 s1 : Cursor) (out0 out : list out_item) (name : string)
    (palette tileize : Z) :
  palette_ok pal0 ->
  Forall (fun c => 0 <= c < 65536) (colors pal0) ->
  png2gba fuel image pal0 s0 out0 name palette tileize = Ret (out, pal, s1) ->
  exists (ps : list (Z * Z)) (vals : list Z),
    drain fuel image tileize s0 = Some (ps, s1)
    /\ length vals = length ps
    /\ out = out0 ++ lines 8 (pixel_entries palette vals) ++ postamble
             ++ (if palette =? 0 then []
                 else table_head name
                      ++ lines 9 (table_entries (colors pal)) ++ postamble)
    /\ Forall (fun v => render_item (pixel_item palette v)
                        = "0x" +:+ hex_fixed true
                                     (if palette =? 0 then 4 else 2) v) vals
    /\ length (table_entries (colors pal)) = Z.to_nat PALETTE_MAX
    /\ Forall (fun c => render_item (Fmt_0x04x c)
                        = "0x" +:+ hex_fixed false 4 c) (colors pal)
    /\ ((forall j : Z, used pal0 <= j < 256 ->
           colors pal0 !! Z.to_nat j = Some 0) ->
        forall j : Z, used pal <= j < 256 ->
          colors pal !! Z.to_nat j = Some 0).
Proof.
  intros Hok Hrange0 Hret.
  destruct (png2gba_ret _ _ _ _ _ _ _ _ _ _ _ Hok Hret)
    as (ps & cols & vals & Hdrain & Hcols & Hvals & Hok1 & Hout).
  assert (Hcolsr : Forall (fun c => 0 <= c < 65536) cols).
  { clear -Hcols. induction Hcols; constructor; eauto using pixel_color_ushort. }
  assert (Hfacts :
    length vals = length ps
    /\ Forall (fun v => 0 <= v < (if palette =? 0 then 65536 else 256)) vals
    /\ Forall (fun c => 0 <= c < 65536) (colors pal)
    /\ ((forall j : Z, used pal0 <= j < 256 ->
           colors pal0 !! Z.to_nat j = Some 0) ->
        forall j : Z, used pal <= j < 256 ->
          colors pal !! Z.to_nat j = Some 0)).
  { destruct (palette =? 0).
    - destruct Hvals as [-> ->].
      split; [symmetry; exact (Forall2_length _ _ _ Hcols) | auto]. 
    - pose proof (insert_all_lookup _ _ _ _ Hok Hvals) as Hlook.
      destruct (insert_all_entries _ _ _ _ Hok Hvals) as (Hr & Habove).
      destruct (insert_all_frame _ _ _ _ Hok Hvals) as (_ & _ & Hused & _).
      split; [| split; [| split]].
      + rewrite <- (Forall2_length _ _ _ Hlook).
        symmetry. exact (Forall2_length _ _ _ Hcols).
      + destruct Hok1 as (_ & Hu & _). clear -Hlook Hu.
        induction Hlook as [| c i cs idxs [Hi _] _ IH]; constructor;
          [lia | exact IH].
      + auto.
      + intros Hzero j Hj. rewrite Habove by lia. apply Hzero. lia. }
  destruct Hfacts as (Hlen & Hvr & Hpr & Hzero).
  exists ps, vals.
  split; [exact Hdrain |]. split; [exact Hlen |]. split; [exact Hout |].
  split; [| split; [| split; [| exact Hzero]]].
  - eapply Forall_impl; [exact Hvr |]. intros v Hv. unfold pixel_item.
    destruct (palette =? 0); cbn [render_item]; f_equal.
    + apply printf_hex_4. exact Hv.
    + apply printf_hex_2. exact Hv.
  - unfold table_entries. rewrite length_imap. apply Hok1.
  - eapply Forall_impl; [exact Hpr |]. intros c Hc. cbn [render_item].
    f_equal. apply printf_hex_4. exact Hc.
Qed.

Lemma png2gba_emits_witness :
  exists vals : list Z,
    [Str "    "; Fmt_0x04X 31; Str ", "; Fmt_0x04X 31; Str ", ";
     Fmt_0x04X 31; Str ", "; Fmt_0x04X 31; Str ", ";
     Str (nl +:+ "};" +:+ nl +:+ nl)]
    = [] ++ lines 8 (pixel_entries 0 vals) ++ postamble ++ [].
Proof.
  destruct (png2gba_emits 10 (solid_image 2 2 [255; 0; 0])
              (new_palette 0) (new_palette 0) cursor0
              {| cur_r := 2; cur_c := 0; cur_tr := 0; cur_tc := 0 |}
              []
              [Str "    "; Fmt_0x04X 31; Str ", "; Fmt_0x04X 31; Str ", ";
               Fmt_0x04X 31; Str ", "; Fmt_0x04X 31; Str ", ";
               Str (nl +:+ "};" +:+ nl +:+ nl)]
              "a" 0 0)
    as (ps & vals & _ & _ & Hout & _).
  - apply new_palette_ok.
  - apply Forall_replicate. lia.
  - reflexivity.
  - exists vals. exact Hout.
Defined.

(** C7, as stated, fails: a run with a capacity of 16 writes a colour table
    of 256 entries, not 16. *)
Lemma table_of_256_entries_for_capacity_16 :
  exists (out : list out_item) (pal : Palette) (s : Cursor),
    main 10 (example_args 16 0) (solid_image 1 1 [255; 0; 0])
    = Ret (out, pal, s)
    /\ length (table_values out) = 256%nat
    /\ length (table_values out) <> Z.to_nat (palette (example_args 16 0)).
Proof.
  eexists _, _, _. split; [vm_compute; reflexivity |].
  split; [vm_compute; reflexivity | vm_compute; discriminate].
Qed.

(** C9. In palette mode, when [png2gba] returns, the index written for each
    position [next_byte] returned is an index at which the final palette
    holds the 15-bit colour of the pixel at that position.  Started with the
    initial variables of [next_byte] and fuel for the whole image, these
    positions are all the pixels of the image: [row_major] in linear mode,
    [tile_major] in tiled mode on multiples of 8. *)
Theorem png2gba_index_roundtrip (fuel : nat) (image : Image)
    (pal0 pal : Palette) (s0 s1 : Cursor) (out0 out : list out_item)
    (name : string) (palette tileize : Z) :
  palette <> 0 ->
  palette_ok pal0 ->
  png2gba fuel image pal0 s0 out0 name palette tileize = Ret (out, pal, s1) ->
  exists (ps : list (Z * Z)) (idxs : list Z),
    drain fuel image tileize s0 = Some (ps, s1)
    /\ out = out0 ++ lines 8 ((λ i, [Fmt_0x02X i; Str ", "]) <$> idxs)
             ++ postamble ++ table_head name
             ++ lines 9 (table_entries (colors pal)) ++ postamble
    /\ Forall2 (fun pos idx =>
                  exists col : Z,
                    pixel_color image pos = Some col
                    /\ 0 <= idx < used pal
                    /\ colors pal !! Z.to_nat idx = Some col) ps idxs
    /\ (s0 = cursor0 -> 0 < width image -> 0 < height image ->
        (Z.to_nat (width image * height image) < fuel)%nat ->
        (tileize = 0 -> ps = row_major (width image) (height image))
        /\ (tileize <> 0 ->
            width image mod 8 = 0 -> height image mod 8 = 0 ->
            ps = tile_major (width image) (height image))).
Proof.
  intros Hp Hok Hret.
  destruct (png2gba_ret _ _ _ _ _ _ _ _ _ _ _ Hok Hret)
    as (ps & cols & idxs & Hdrain & Hcols & Hidxs & _ & Hout).
  unfold pixel_entries, pixel_item in Hout.
  rewrite (proj2 (Z.eqb_neq palette 0) Hp) in Hidxs, Hout.
  exists ps, idxs. split; [exact Hdrain |]. split; [exact Hout |].
  split.
  - exact (Forall2_chain _ _ _ _ _ Hcols
             (insert_all_lookup _ _ _ _ Hok Hidxs)).
  - intros -> HW HH Hfuel. split.
    + intros ->. rewrite linear_drain in Hdrain by assumption. congruence.
    + intros Ht HW8 HH8. rewrite tiled_drain in Hdrain by assumption.
      congruence.
Qed.

Lemma png2gba_index_roundtrip_witness :
  exists (out : list out_item) (pal : Palette) (s1 : Cursor),
    png2gba 10 (solid_image 2 2 [255; 0; 0]) keyed_palette cursor0 [] "a" 16 0
    = Ret (out, pal, s1)
    /\ exists (ps : list (Z * Z)) (idxs : list Z),
         drain 10 (solid_image 2 2 [255; 0; 0]) 0 cursor0 = Some (ps, s1)
         /\ Forall2 (fun pos idx =>
                       exists col : Z,
                         pixel_color (solid_image 2 2 [255; 0; 0]) pos
                         = Some col
                         /\ 0 <= idx < used pal
                         /\ colors pal !! Z.to_nat idx = Some col) ps idxs.
Proof.
  eexists _, _, _. split; [vm_compute; reflexivity |].
  epose proof (png2gba_index_roundtrip 10 (solid_image 2 2 [255; 0; 0])
                 keyed_palette _ cursor0 _ [] _ "a" 16 0) as Hround.
  destruct Hround as (ps & idxs & Hdrain & _ & Hall & _).
  - lia.
  - unfold palette_ok, PALETTE_MAX. cbn. repeat split; lia.
  - vm_compute. reflexivity.
  - exists ps, idxs. split; [exact Hdrain | exact Hall].
Defined.

(** The text of a run of [png2gba] in direct-colour mode on a 2 by 2 image
    of pure red. *)
Example red_2_by_2_direct_text :
  (let* (out, _, _) :=
     png2gba 10 (solid_image 2 2 [255; 0; 0]) (new_palette 0) cursor0 []
       "a" 0 0 in
   Ret (render out))
  = Ret ("    0x001F, 0x001F, 0x001F, 0x001F, " +:+ nl +:+ "};" +:+ nl +:+ nl).
Proof. vm_compute. reflexivity. Qed.

(** ** The colour key *)

Lemma is_hex_facts (a : ascii) :
  is_hex a = true ->
  (exists d : Z, hex_digit a = Some d /\ 0 <= d <= 15)
  /\ Ascii.eqb a Ascii.zero = false
  /\ is_space a = false
  /\ Ascii.eqb a "-"%char = false
  /\ Ascii.eqb a "+"%char = false.
Proof.
  destruct a as [[] [] [] [] [] [] [] []]; intros Hhex;
    vm_compute in Hhex; try discriminate Hhex;
    (split; [eexists; split; [vm_compute; reflexivity | lia]
            | repeat split]).
Qed.

Lemma strtol16_hex_pair (a b : ascii) :
  is_hex a = true -> is_hex b = true ->
  strtol16 (c_string2 a b) = hex_byte a b /\ 0 <= hex_byte a b <= 255.
Proof.
  intros Ha Hb.
  destruct (is_hex_facts a Ha) as ((da & Hda & Hra) & Ha0 & Has & Ham & Hap).
  destruct (is_hex_facts b Hb) as ((db & Hdb & Hrb) & Hb0 & _).
  unfold c_string2, strtol16, hex_byte. rewrite Ha0, Hb0.
  cbn [strtol_skip]. rewrite Has, Ham, Hap.
  cbn [strtol_digits]. rewrite Hda, Hdb. cbn [default]. unfold id. lia.
Qed.

(** On a colour key [#RRGGBB], [hex24_to_15] returns the 15-bit colour of
    the three bytes the digits denote. *)
Lemma hex24_to_15_valid (key : string) :
  valid_colorkey key = true ->
  exists r g b : Z,
    0 <= r <= 255 /\ 0 <= g <= 255 /\ 0 <= b <= 255
    /\ hex24_to_15 key = Ret (quantize r g b).
Proof.
  unfold valid_colorkey.
  destruct key as [| h [| r0 [| r1 [| g0 [| g1 [| b0 [| b1 [| x rest]]]]]]]];
    cbn [list_ascii_of_string]; try discriminate.
  intros Hvalid. repeat (apply andb_true_iff in Hvalid as [Hvalid ?]).
  destruct (strtol16_hex_pair r0 r1) as [Er Hr]; [assumption .. |].
  destruct (strtol16_hex_pair g0 g1) as [Eg Hg]; [assumption .. |].
  destruct (strtol16_hex_pair b0 b1) as [Eb Hb]; [assumption .. |].
  exists (hex_byte r0 r1), (hex_byte g0 g1), (hex_byte b0 b1).
  repeat (split; [assumption |]).
  unfold hex24_to_15, char_at. cbn [String.get String.length of_option bind].
  rewrite Er, Eg, Eb. reflexivity.
Qed.

(** With a capacity of 16 the colour key goes to entry 0 of the palette. *)
Lemma colorkey_slot_0 (c : Z) :
  insert_palette c (new_palette 16)
  = Ret (0, {| colors := <[0%nat := c]> (replicate (Z.to_nat PALETTE_MAX) 0);
               used := 1;
               max := 16 |}).
Proof. reflexivity. Qed.

(** A colour that sits in entry 0 gets index 0 every time it is inserted
    during a run. *)
Lemma insert_all_entry_0 (c : Z) (cols : list Z) :
  forall (p p' : Palette) (idxs : list Z),
    palette_ok p -> 0 < used p -> colors p !! 0%nat = Some c ->
    insert_all cols p = Ret (idxs, p') ->
    Forall2 (fun col idx => col = c -> idx = 0) cols idxs.
Proof.
  induction cols as [| col cols IH]; intros p p' idxs Hok Hused H0 Hall;
    cbn in Hall.
  - inversion Hall; subst. constructor.
  - destruct (insert_palette col p) as [[i p1] | | |] eqn:E; try discriminate.
    cbn in Hall.
    destruct (insert_all cols p1) as [[idxs' p2] | | |] eqn:E';
      try discriminate.
    cbn in Hall. inversion Hall; subst; clear Hall.
    destruct (insert_palette_ret _ _ _ _ Hok E)
      as (Hok1 & _ & _ & _ & Hframe & Hused1 & _).
    constructor.
    + intros ->.
      rewrite (insert_palette_first c p 0 Hok) in E; [congruence |].
      repeat split; [lia | lia | exact H0 |]. intros j Hj. lia.
    + apply (IH p1 p' idxs' Hok1); [lia | | exact E'].
      rewrite <- H0. apply (Hframe 0). lia.
Qed.

(** X18. With a capacity of 16 a returning run has the colour key in
    entry 0 of the palette, and every pixel of the key's colour is written
    as index 0. *)
Lemma main_capacity_16_colorkey (fuel : nat) (image : Image) (args : Arguments)
    (out : list out_item) (pal : Palette) (s : Cursor) :
  palette args = 16 ->
  valid_colorkey (colorkey args) = true ->
  main fuel args image = Ret (out, pal, s) ->
  exists (c : Z) (ps : list (Z * Z)) (idxs : list Z)
         (out0 rest : list out_item),
    hex24_to_15 (colorkey args) = Ret c
    /\ colors pal !! 0%nat = Some c
    /\ drain fuel image (tileize args) cursor0 = Some (ps, s)
    /\ out = out0 ++ lines 8 (pixel_entries 16 idxs) ++ rest
    /\ Forall2 (fun pos idx => pixel_color image pos = Some c -> idx = 0)
         ps idxs.
Proof.
  intros Hp Hkey Hmain.
  destruct (hex24_to_15_valid _ Hkey) as (r & g & b & _ & _ & _ & E).
  unfold main in Hmain. rewrite Hp, E in Hmain.
  destruct (input_file_name args) as [input |]; [| discriminate].
  cbn [negb andb Z.eqb Pos.eqb] in Hmain.
  destruct (chop_png input) as [name |]; [| discriminate].
  cbn [bind] in Hmain. rewrite colorkey_slot_0 in Hmain. cbn [bind] in Hmain.
  set (c := quantize r g b) in *.
  set (pal0 := {| colors := <[0%nat := c]> (replicate (Z.to_nat PALETTE_MAX) 0);
                  used := 1; max := 16 |}) in *.
  assert (Hok0 : palette_ok pal0).
  { unfold palette_ok, pal0, PALETTE_MAX. cbn. repeat split; lia. }
  destruct (png2gba_ret _ _ _ _ _ _ _ _ _ _ _ Hok0 Hmain)
    as (ps & cols & idxs & Hdrain & Hcols & Hidxs & _ & Hout).
  change (16 =? 0) with false in Hidxs, Hout.
  destruct (insert_all_frame _ _ _ _ Hok0 Hidxs) as (_ & _ & _ & Hframe).
  eexists c, ps, idxs, _, _. split; [exact E |].
  split; [exact (Hframe 0 ltac:(cbn; lia)) |].
  split; [exact Hdrain |]. split; [exact Hout |].
  pose proof (insert_all_entry_0 c cols pal0 pal idxs Hok0 ltac:(cbn; lia)
                ltac:(reflexivity) Hidxs) as Hzero.
  clear -Hcols Hzero. revert idxs Hzero.
  induction Hcols as [| pos col ps cols Hpos _ IH]; intros idxs Hzero;
    inversion Hzero; subst; constructor; [| auto].
  intros Hc. rewrite Hpos in Hc. inversion Hc; subst. auto.
Qed.

(** X16. The same truncation stops every run in direct-colour mode, where
    [args.palette] is 0, at the insertion of the colour key. *)
Lemma main_direct_mode_exits (fuel : nat) (image : Image) (args : Arguments)
    (input name : string) :
  palette args = 0 ->
  input_file_name args = Some input ->
  chop_png input = Some name ->
  valid_colorkey (colorkey args) = true ->
  main fuel args image = Exit TooManyColors.
Proof.
  intros Hp Hin Hname Hkey.
  destruct (hex24_to_15_valid _ Hkey) as (r & g & b & _ & _ & _ & E).
  unfold main. rewrite Hin, Hp, Hname, E. reflexivity.
Qed.

(** C6. A run in palette mode with a capacity of 256 stops while it
    inserts the colour key, with "Too many colors in image for the
    palette!": the key is not put at index 0 and no pixel is processed. *)
Theorem main_capacity_256_exits (fuel : nat) (image : Image) (args : Arguments)
    (input name : string) :
  palette args = 256 ->
  input_file_name args = Some input ->
  chop_png input = Some name ->
  valid_colorkey (colorkey args) = true ->
  main fuel args image = Exit TooManyColors.
Proof.
  intros Hp Hin Hname Hkey.
  destruct (hex24_to_15_valid _ Hkey) as (r & g & b & _ & _ & _ & E).
  unfold main. rewrite Hin, Hp, Hname, E. reflexivity.
Qed.

Lemma main_capacity_256_exits_witness :
  main 10 (example_args 256 0) (solid_image 2 2 [255; 0; 0])
  = Exit TooManyColors.
Proof.
  apply (main_capacity_256_exits 10 (solid_image 2 2 [255; 0; 0])
           (example_args 256 0) "a.png" "a");
    reflexivity.
Defined.

(** ** Dimensions in tiled mode *)

(** C8, as stated, fails: the 8 by 4 image, whose height is not a multiple
    of 8, is converted in tiled mode, 32 palette indices and all. *)
Lemma tiled_8_by_4_is_converted :
  height (solid_image 8 4 [255; 0; 0]) mod 8 <> 0
  /\ tileize (example_args 16 1) <> 0
  /\ exists (out : list out_item) (pal : Palette) (s : Cursor),
       main 40 (example_args 16 1) (solid_image 8 4 [255; 0; 0])
       = Ret (out, pal, s)
       /\ length (index_values out) = 32%nat.
Proof.
  split; [vm_compute; discriminate |]. split; [vm_compute; discriminate |].
  eexists _, _, _. split; vm_compute; reflexivity.
Qed.

(** What [main] does before the loop of [png2gba] makes its first call of
    [next_byte] is the same for all images. *)
Lemma main_before_traversal (args : Arguments) (image image' : Image) :
  main 0 args image = main 0 args image'.
Proof.
  unfold main.
  destruct (input_file_name args) as [input |]; [| reflexivity].
  destruct (negb (palette args =? 0) && negb (palette args =? 16)
            && negb (palette args =? 256)); [reflexivity |].
  destruct (chop_png input) as [name |]; [| reflexivity].
  destruct (hex24_to_15 (colorkey args)) as [key | | |]; [| reflexivity ..].
  cbn [bind].
  destruct (insert_palette key (new_palette (palette args)))
    as [[i pal] | | |]; reflexivity.
Qed.

(** C8 (amended). Nothing looks at the dimensions before traversal: what
    [main] does before the first call of [next_byte] is the same for all
    images, and for an image of any width and any height but 0, multiples of
    8 or not, the first call of [next_byte] in tiled mode returns the
    position (0,0), and the loop of [png2gba] starts by processing that
    pixel. *)
Theorem tiled_traversal_begins (args : Arguments) (image : Image)
    (fuel : nat) (st : Palette * Z * list out_item) :
  tileize args <> 0 ->
  height image <> 0 ->
  (forall image' : Image, main 0 args image' = main 0 args image)
  /\ exists s' : Cursor,
       next_byte image (tileize args) cursor0 = (Some (0, 0), s')
       /\ png2gba_loop (S fuel) image (palette args) (tileize args) cursor0 st
          = (let* st' := png2gba_pixel image (palette args) (0, 0) st in
             png2gba_loop fuel image (palette args) (tileize args) s' st').
Proof.
  intros Ht Hh. split; [intros image'; apply main_before_traversal |].
  assert (Hstep : exists s',
             next_byte image (tileize args) cursor0 = (Some (0, 0), s')).
  { eexists. unfold cursor0.
    apply (tiled_step_inside image (tileize args) Ht); lia. }
  destruct Hstep as (s' & Hstep). exists s'. split; [exact Hstep |].
  cbn [png2gba_loop]. rewrite Hstep. reflexivity.
Qed.

Lemma tiled_traversal_begins_witness :
  exists s' : Cursor,
    next_byte (solid_image 8 4 [255; 0; 0]) 1 cursor0 = (Some (0, 0), s').
Proof.
  destruct (tiled_traversal_begins (example_args 16 1)
              (solid_image 8 4 [255; 0; 0]) 0 (keyed_palette, 0, []))
    as (_ & s' & Hstep & _); [cbn; lia | cbn; lia |].
  exists s'. exact Hstep.
Defined.

(** ** Runs that return *)

(** Inside the image every pixel can be read. *)
Lemma read_pixel_inside (image : Image) (r c : Z) :
  image_ok image ->
  0 <= r < height image -> 0 <= c < width image ->
  is_Some (read_pixel image (r, c)).
Proof.
  intros (HW & HH & Hch & Hrows & Hrow) Hr Hc. unfold read_pixel.
  assert (Hi : 0 <= c * channels image) by nia.
  replace ((r <? 0) || (c * channels image <? 0)) with false
    by (symmetry; apply orb_false_iff; split; apply Z.ltb_ge; lia).
  destruct (lookup_lt_is_Some_2 (rows image) (Z.to_nat r)) as [row Erow];
    [lia |].
  rewrite Erow. cbn [mbind option_bind].
  assert (Hlen : length row = Z.to_nat (width image * channels image)).
  { rewrite Forall_forall in Hrow. apply Hrow.
    apply list_elem_of_lookup_2 in Erow. exact Erow. }
  assert (Hlast : c * channels image + 2 < width image * channels image) by nia.
  destruct (lookup_lt_is_Some_2 row (Z.to_nat (c * channels image)))
    as [red Ered]; [lia |].
  destruct (lookup_lt_is_Some_2 row (Z.to_nat (c * channels image + 1)))
    as [green Egreen]; [lia |].
  destruct (lookup_lt_is_Some_2 row (Z.to_nat (c * channels image + 2)))
    as [blue Eblue]; [lia |].
  rewrite Ered. cbn [mbind option_bind]. rewrite Egreen.
  cbn [mbind option_bind]. rewrite Eblue. cbn [mbind option_bind]. eauto.
Qed.

(** The loop body on readable pixels returns, or, in palette mode, stops
    because the palette is full. *)
Lemma png2gba_pixels_total (image : Image) (palette : Z) (ps : list (Z * Z)) :
  Forall (fun pos => is_Some (read_pixel image pos)) ps ->
  forall (pal : Palette) (ctl : Z) (out : list out_item),
    palette_ok pal ->
    (exists st', png2gba_pixels image palette ps (pal, ctl, out) = Ret st')
    \/ (palette <> 0
        /\ png2gba_pixels image palette ps (pal, ctl, out)
           = Exit TooManyColors).
Proof.
  induction 1 as [| pos ps [[[red green] blue] Hread] _ IH];
    intros pal ctl out Hok; cbn [png2gba_pixels]; [eauto |].
  unfold png2gba_pixel. rewrite Hread. cbn [of_option bind].
  destruct (Z.eqb_spec palette 0) as [Hp | Hp].
  - cbn [bind].
    destruct (ctl + 1 >=? TILE_SIZE); cbn [bind];
      match goal with
      | |- context [png2gba_pixels image palette ps (?p, ?k, ?o)] =>
          destruct (IH p k o Hok) as [Hret | [Hne _]];
            [left; exact Hret | contradiction]
      end.
  - destruct (insert_palette_cases (quantize red green blue) pal Hok)
      as [(k & _ & E) | [(_ & _ & E) | (_ & _ & E)]]; rewrite E; cbn [bind].
    + destruct (ctl + 1 >=? TILE_SIZE); cbn [bind];
        match goal with
        | |- context [png2gba_pixels image palette ps (?p, ?k, ?o)] =>
            destruct (IH p k o Hok) as [Hret | Hexit];
              [left; exact Hret | right; exact Hexit]
        end.
    + right. split; [exact Hp | reflexivity].
    + pose proof (proj1 (insert_palette_ret _ _ _ _ Hok E)) as Hok1.
      destruct (ctl + 1 >=? TILE_SIZE); cbn [bind];
        match goal with
        | |- context [png2gba_pixels image palette ps (?p, ?k, ?o)] =>
            destruct (IH p k o Hok1) as [Hret | Hexit];
              [left; exact Hret | right; exact Hexit]
        end.
Qed.

(** X15. On an image as [read_png] returns it, with enough fuel for its
    [W * H] pixels, [png2gba] returns in linear mode, and in tiled mode if
    the dimensions are multiples of 8; the one exception is the exit for a
    full palette, in palette mode. *)
Lemma png2gba_total (fuel : nat) (image : Image) (pal0 : Palette)
    (out0 : list out_item) (name : string) (palette tileize : Z) :
  image_ok image ->
  palette_ok pal0 ->
  tileize = 0 \/ (width image mod 8 = 0 /\ height image mod 8 = 0) ->
  (Z.to_nat (width image * height image) < fuel)%nat ->
  (exists (out : list out_item) (pal : Palette) (s1 : Cursor),
     png2gba fuel image pal0 cursor0 out0 name palette tileize
     = Ret (out, pal, s1))
  \/ (palette <> 0
      /\ png2gba fuel image pal0 cursor0 out0 name palette tileize
         = Exit TooManyColors).
Proof.
  intros Himg Hok Hmode Hfuel.
  assert (Hdrain : exists (ps : list (Z * Z)) (s1 : Cursor),
             drain fuel image tileize cursor0 = Some (ps, s1)
             /\ Forall (fun pos => is_Some (read_pixel image pos)) ps).
  { pose proof Himg as (HW & HH & _).
    destruct (Z.eq_dec tileize 0) as [-> | Ht].
    - eexists _, _. split; [apply linear_drain; assumption |].
      apply Forall_forall. intros [r c] Hin.
      apply elem_of_block in Hin. apply read_pixel_inside; [exact Himg | lia ..].
    - destruct Hmode as [? | [HW8 HH8]]; [contradiction |].
      eexists _, _. split; [apply tiled_drain; assumption |].
      apply Forall_forall. intros [r c] Hin.
      apply elem_of_tile_major in Hin; try assumption.
      apply read_pixel_inside; [exact Himg | lia ..]. }
  destruct Hdrain as (ps & s1 & Hdrain & Hread).
  unfold png2gba.
  rewrite (png2gba_loop_drain image palette tileize fuel _ _ _ _ Hdrain).
  destruct (png2gba_pixels_total image palette ps Hread pal0 0 out0 Hok)
    as [[[[pal1 ctl] out1] Hret] | [Hp Hexit]].
  - rewrite Hret. cbn [bind]. left.
    destruct (png2gba_pixels_ret image palette ps pal0 pal1 0 ctl out0 out1
                ltac:(lia) Hret) as (cols & vals & _ & Hvals & _).
    assert (Hok1 : palette_ok pal1).
    { destruct (palette =? 0).
      - destruct Hvals as [_ ->]. exact Hok.
      - apply (insert_all_frame _ _ _ _ Hok Hvals). }
    destruct (palette =? 0); cbn [negb]; [eauto |].
    rewrite (palette_rows_spec (colors pal1) (proj1 Hok1)
               (S (Z.to_nat PALETTE_MAX)) 0 0)
      by (unfold PALETTE_MAX; lia).
    cbn [bind]. eauto.
  - rewrite Hexit. cbn [bind]. right. split; [exact Hp | reflexivity].
Qed.

(** * Further properties of the code *)

(** ** [insert_palette] *)

(** X1. On a well-typed palette [insert_palette] stays inside the [colors]
    array and its loop ends: the call returns an index, or it exits with
    "Too many colors"; it exits exactly when the colour is not among the
    entries in use and [used >= max - 1]. *)
Theorem insert_palette_outcome (color : Z) (p : Palette) :
  palette_ok p ->
  ((exists (i : Z) (p' : Palette), insert_palette color p = Ret (i, p'))
   \/ insert_palette color p = Exit TooManyColors)
  /\ (insert_palette color p = Exit TooManyColors
      <-> absent color p 0 (used p) /\ used p >= max p - 1).
Proof.
  intros Hok.
  destruct (insert_palette_cases color p Hok)
    as [(k & (Hk & Hat & _) & E) | [(Habs & Hfull & E) | (Habs & Hroom & E)]];
    rewrite E.
  - split; [left; eauto |]. split; [discriminate |].
    intros [Habs _]. exfalso. exact (Habs k Hk Hat).
  - split; [right; reflexivity |]. split; auto.
  - split; [left; eauto |]. split; [discriminate | lia].
Qed.

Lemma insert_palette_outcome_witness :
  insert_palette 7 three_colors
  = Ret (3, {| colors := <[3%nat := 7]> (colors three_colors);
               used := 4; max := 16 |})
  /\ ((exists (i : Z) (p' : Palette), insert_palette 7 three_colors = Ret (i, p'))
      \/ insert_palette 7 three_colors = Exit TooManyColors).
Proof.
  split; [reflexivity |].
  apply (insert_palette_outcome 7 three_colors).
  unfold palette_ok, three_colors, PALETTE_MAX. cbn. repeat split; lia.
Defined.

(** X2. A colour that is not yet in the palette is stored in the first free
    entry, whose index is returned, while [used < max - 1]: the size grows
    by one and nothing else changes. *)
Theorem insert_palette_appends (color : Z) (p : Palette) :
  palette_ok p ->
  absent color p 0 (used p) ->
  used p < max p - 1 ->
  exists p' : Palette,
    insert_palette color p = Ret (used p, p')
    /\ used p' = used p + 1
    /\ max p' = max p
    /\ colors p' !! Z.to_nat (used p) = Some color
    /\ (forall j : nat, j <> Z.to_nat (used p) ->
          colors p' !! j = colors p !! j).
Proof.
  intros Hok Habs Hroom.
  destruct (insert_palette_cases color p Hok)
    as [(k & (Hk & Hat & _) & _) | [(_ & Hfull & _) | (_ & _ & E)]].
  - exfalso. exact (Habs k Hk Hat).
  - lia.
  - eexists. split; [exact E |]. cbn [used max colors].
    destruct Hok as (Hlen & Hused & _).
    repeat split.
    + apply list_lookup_insert_eq. rewrite Hlen. unfold PALETTE_MAX. lia.
    + intros j Hj. apply list_lookup_insert_ne. congruence.
Qed.

Lemma insert_palette_appends_witness :
  exists p' : Palette,
    insert_palette 7 three_colors = Ret (3, p') /\ used p' = 4.
Proof.
  destruct (insert_palette_appends 7 three_colors) as (p' & E & Hu & _).
  - unfold palette_ok, three_colors, PALETTE_MAX. cbn. repeat split; lia.
  - intros j Hj.
    assert (j = 0 \/ j = 1 \/ j = 2) as [-> | [-> | ->]]
      by (cbn in Hj; lia); cbn; discriminate.
  - cbn. lia.
  - exists p'. split; [exact E | exact Hu].
Defined.

(** The index of a colour is the index of its first occurrence in the
    palette the run ends with. *)
Lemma insert_all_first_at (cs : list Z) :
  forall (p p' : Palette) (idxs : list Z),
    palette_ok p ->
    insert_all cs p = Ret (idxs, p') ->
    Forall2 (fun c i => first_at c p' 0 i) cs idxs.
Proof.
  induction cs as [| c cs IH]; intros p p' idxs Hok Hall; cbn in Hall.
  - inversion Hall; subst. constructor.
  - destruct (insert_palette c p) as [[i p1] | | |] eqn:E; try discriminate.
    cbn in Hall.
    destruct (insert_all cs p1) as [[idxs' p2] | | |] eqn:E'; try discriminate.
    cbn in Hall. inversion Hall; subst; clear Hall.
    destruct (insert_palette_ret _ _ _ _ Hok E)
      as (Hok1 & _ & Hi & (_ & Hat & Habs) & _).
    destruct (insert_all_frame _ _ _ _ Hok1 E') as (_ & _ & Hused & Hframe).
    constructor; [| exact (IH _ _ _ Hok1 E')].
    repeat split; [lia | lia | rewrite Hframe by lia; exact Hat |].
    intros j Hj. rewrite Hframe by lia. apply Habs. exact Hj.
Qed.

(** X3. In a run of insertions equal colours get equal indices and
    different colours get different indices: from the indices and the final
    palette the colours can be told apart again. *)
Theorem insert_all_same_index (cs idxs : list Z) (p p' : Palette)
    (m n : nat) (c1 c2 i1 i2 : Z) :
  palette_ok p ->
  insert_all cs p = Ret (idxs, p') ->
  cs !! m = Some c1 -> cs !! n = Some c2 ->
  idxs !! m = Some i1 -> idxs !! n = Some i2 ->
  (i1 = i2 <-> c1 = c2).
Proof.
  intros Hok Hall Hc1 Hc2 Hi1 Hi2.
  pose proof (insert_all_first_at _ _ _ _ Hok Hall) as Hfirst.
  pose proof (Forall2_lookup_lr _ _ _ _ _ _ Hfirst Hc1 Hi1) as H1.
  pose proof (Forall2_lookup_lr _ _ _ _ _ _ Hfirst Hc2 Hi2) as H2.
  split.
  - intros ->. destruct H1 as (_ & Hat1 & _), H2 as (_ & Hat2 & _). congruence.
  - intros ->. exact (first_at_unique _ _ _ _ _ H1 H2).
Qed.

Lemma insert_all_same_index_witness :
  exists (idxs : list Z) (p' : Palette),
    insert_all [31; 5; 31; 6] three_colors = Ret (idxs, p')
    /\ idxs !! 0%nat = Some 1 /\ idxs !! 2%nat = Some 1
    /\ (1 = 1 <-> 31 = 31).
Proof.
  eexists _, _. split; [vm_compute; reflexivity |].
  split; [reflexivity |]. split; [reflexivity |].
  eapply (insert_all_same_index [31; 5; 31; 6] _ three_colors _ 0 2 31 31 1 1).
  - unfold palette_ok, three_colors, PALETTE_MAX. cbn. repeat split; lia.
  - vm_compute. reflexivity.
  - reflexivity.
  - reflexivity.
  - reflexivity.
  - reflexivity.
Defined.

Lemma insert_palette_distinct (color : Z) (p p' : Palette) (idx : Z) :
  palette_ok p -> distinct_used p ->
  insert_palette color p = Ret (idx, p') ->
  distinct_used p'.
Proof.
  intros Hok Hd E.
  destruct (insert_palette_cases color p Hok)
    as [(k & _ & E1) | [(_ & _ & E1) | (Habs & Hroom & E1)]];
    rewrite E1 in E; inversion E; subst; clear E; [exact Hd |].
  destruct Hok as (Hlen & Hused & _).
  assert (Hin : (Z.to_nat (used p) < length (colors p))%nat)
    by (rewrite Hlen; unfold PALETTE_MAX; lia).
  intros i j c Hi Hj Hci Hcj. cbn [used colors] in *.
  destruct (Z.eq_dec i (used p)) as [-> | Hni],
           (Z.eq_dec j (used p)) as [-> | Hnj]; [reflexivity | | |].
  - rewrite list_lookup_insert_eq in Hci by exact Hin.
    rewrite list_lookup_insert_ne in Hcj by lia.
    inversion Hci; subst. exfalso. apply (Habs j); [lia | exact Hcj].
  - rewrite list_lookup_insert_eq in Hcj by exact Hin.
    rewrite list_lookup_insert_ne in Hci by lia.
    inversion Hcj; subst. exfalso. apply (Habs i); [lia | exact Hci].
  - rewrite list_lookup_insert_ne in Hci, Hcj by lia.
    apply (Hd i j c); assumption || lia.
Qed.

(** X4. The entries in use stay pairwise different: a run of insertions
    into a palette without a repeated colour ends with a palette without a
    repeated colour (the palette [main] starts from has none). *)
Theorem insert_all_distinct (cs : list Z) :
  forall (p p' : Palette) (idxs : list Z),
    palette_ok p -> distinct_used p ->
    insert_all cs p = Ret (idxs, p') ->
    distinct_used p'.
Proof.
  induction cs as [| c cs IH]; intros p p' idxs Hok Hd Hall; cbn in Hall.
  - inversion Hall; subst. exact Hd.
  - destruct (insert_palette c p) as [[i p1] | | |] eqn:E; try discriminate.
    cbn in Hall.
    destruct (insert_all cs p1) as [[idxs' p2] | | |] eqn:E'; try discriminate.
    cbn in Hall. inversion Hall; subst; clear Hall.
    apply (IH p1 p' idxs').
    + apply (insert_palette_ret _ _ _ _ Hok E).
    + exact (insert_palette_distinct _ _ _ _ Hok Hd E).
    + exact E'.
Qed.

Lemma insert_all_distinct_witness :
  exists (idxs : list Z) (p' : Palette),
    insert_all [31; 5; 31; 6] (new_palette 16) = Ret (idxs, p')
    /\ distinct_used p'.
Proof.
  eexists _, _. split; [vm_compute; reflexivity |].
  eapply (insert_all_distinct [31; 5; 31; 6] (new_palette 16)).
  - apply new_palette_ok.
  - intros i j c Hi. cbn in Hi. lia.
  - vm_compute. reflexivity.
Defined.

(** X5. The palette never holds more than [max - 1] colours, the colour key
    included: a run of insertions that starts with at most [max - 1] entries
    in use ends with at most [max - 1], and every index returned is below
    [max - 1]; the last of the [max] entries is never used. *)
Theorem insert_all_below_max (cs idxs : list Z) (p p' : Palette) :
  palette_ok p ->
  used p <= max p - 1 ->
  insert_all cs p = Ret (idxs, p') ->
  max p' = max p
  /\ used p' <= max p - 1
  /\ Forall (fun i => 0 <= i < max p - 1) idxs.
Proof.
  intros Hok Hu Hall.
  assert (Hgen : forall cs p p' idxs,
             palette_ok p -> insert_all cs p = Ret (idxs, p') ->
             used p' <= Z.max (used p) (max p - 1)).
  { clear. induction cs as [| c cs IH]; intros p p' idxs Hok Hall;
      cbn in Hall.
    - inversion Hall; subst. lia.
    - destruct (insert_palette c p) as [[i p1] | | |] eqn:E; try discriminate.
      cbn in Hall.
      destruct (insert_all cs p1) as [[idxs' p2] | | |] eqn:E';
        try discriminate.
      cbn in Hall. inversion Hall; subst; clear Hall.
      destruct (insert_palette_ret _ _ _ _ Hok E)
        as (Hok1 & Hmax & _ & _ & _ & _ & Hb).
      pose proof (IH _ _ _ Hok1 E'). lia. }
  pose proof (Hgen _ _ _ _ Hok Hall) as Hb.
  destruct (insert_all_frame _ _ _ _ Hok Hall) as (_ & Hmax & _ & _).
  split; [exact Hmax |]. split; [lia |].
  pose proof (insert_all_lookup _ _ _ _ Hok Hall) as Hlook.
  clear -Hlook Hb Hu. induction Hlook as [| c i cs idxs [Hi _] _ IH];
    constructor; [lia | exact IH].
Qed.

Lemma insert_all_below_max_witness :
  exists (idxs : list Z) (p' : Palette),
    insert_all [31; 5; 31; 6] (new_palette 16) = Ret (idxs, p')
    /\ used p' <= 16 - 1.
Proof.
  eexists _, _. split; [vm_compute; reflexivity |].
  refine (proj1 (proj2 (insert_all_below_max [31; 5; 31; 6] _ (new_palette 16)
                          _ (new_palette_ok 16) _ _))).
  - apply Z.leb_le. reflexivity.
  - vm_compute. reflexivity.
Defined.

(** X6. Room for every colour is enough: a run of [n] insertions into a
    palette with [used + n <= max - 1] does not exit. *)
Theorem insert_all_room (cs : list Z) :
  forall p : Palette,
    palette_ok p ->
    used p + Z.of_nat (length cs) <= max p - 1 ->
    exists (idxs : list Z) (p' : Palette),
      insert_all cs p = Ret (idxs, p')
      /\ length idxs = length cs
      /\ used p' <= used p + Z.of_nat (length cs).
Proof.
  induction cs as [| c cs IH]; intros p Hok Hroom.
  - exists [], p. cbn. split; [reflexivity |]. split; [reflexivity | lia].
  - cbn [length] in Hroom. cbn [insert_all].
    destruct (insert_palette_cases c p Hok)
      as [(k & _ & E) | [(_ & Hfull & _) | (_ & _ & E)]]; [| lia |];
      rewrite E; cbn [bind].
    + destruct (IH p Hok ltac:(lia)) as (idxs & p' & E' & Hlen & Hu).
      rewrite E'. cbn [bind]. eexists _, _. split; [reflexivity |].
      cbn [length]. split; [lia | lia].
    + pose proof (proj1 (insert_palette_ret _ _ _ _ Hok E)) as Hok1.
      destruct (IH _ Hok1 ltac:(cbn [used max]; lia))
        as (idxs & p' & E' & Hlen & Hu).
      rewrite E'. cbn [bind]. eexists _, _. split; [reflexivity |].
      cbn [length used] in *. split; [lia | lia].
Qed.

Lemma insert_all_room_witness :
  exists (idxs : list Z) (p' : Palette),
    insert_all [31; 5; 31; 6] three_colors = Ret (idxs, p')
    /\ length idxs = 4%nat.
Proof.
  destruct (insert_all_room [31; 5; 31; 6] three_colors)
    as (idxs & p' & E & Hlen & _).
  - unfold palette_ok, three_colors, PALETTE_MAX. cbn. repeat split; lia.
  - cbn. lia.
  - exists idxs, p'. split; [exact E | exact Hlen].
Defined.

(** ** The colour reduction, read back *)

(** X7. The three 5-bit fields can be read back from the 15-bit colour:
    bits 0-4 are the top five bits of red, bits 5-9 those of green and bits
    10-14 those of blue. *)
Theorem quantize_fields_back (r g b : Z) :
  0 <= r <= 255 -> 0 <= g <= 255 -> 0 <= b <= 255 ->
  Z.land (quantize r g b) 31 = r ≫ 3
  /\ Z.land (quantize r g b ≫ 5) 31 = g ≫ 3
  /\ quantize r g b ≫ 10 = b ≫ 3.
Proof.
  intros Hr Hg Hb.
  pose proof (shiftr3_byte r Hr) as HR.
  pose proof (shiftr3_byte g Hg) as HG.
  pose proof (shiftr3_byte b Hb) as HB.
  assert (E : quantize r g b = (b ≫ 3) * 1024 + (g ≫ 3) * 32 + r ≫ 3).
  { unfold quantize, to_ushort.
    rewrite !(Z.shiftl_mul_pow2 _ 10), !(Z.shiftl_mul_pow2 _ 5) by lia.
    change (2 ^ 10) with 1024. change (2 ^ 5) with 32.
    rewrite (Z.mod_small ((b ≫ 3) * 1024)) by lia.
    rewrite (Z.mod_small ((b ≫ 3) * 1024 + (g ≫ 3) * 32)) by lia.
    apply Z.mod_small. lia. }
  rewrite E. clear E.
  generalize dependent (r ≫ 3). generalize dependent (g ≫ 3).
  generalize dependent (b ≫ 3). intros B HB G HG R HR.
  change 31 with (Z.ones 5). rewrite !Z.land_ones by lia.
  rewrite !Z.shiftr_div_pow2 by lia.
  change (2 ^ 5) with 32. change (2 ^ 10) with 1024.
  repeat split.
  - symmetry. apply (Z.mod_unique_pos _ 32 (B * 32 + G)); lia.
  - assert (Ed : (B * 1024 + G * 32 + R) / 32 = B * 32 + G)
      by (symmetry; apply (Z.div_unique_pos _ 32 _ R); lia).
    rewrite Ed. symmetry. apply (Z.mod_unique_pos _ 32 B); lia.
  - symmetry. apply (Z.div_unique_pos _ 1024 _ (G * 32 + R)); lia.
Qed.

Lemma quantize_fields_back_witness :
  Z.land (quantize 255 64 130) 31 = 255 ≫ 3
  /\ Z.land (quantize 255 64 130 ≫ 5) 31 = 64 ≫ 3
  /\ quantize 255 64 130 ≫ 10 = 130 ≫ 3.
Proof. apply (quantize_fields_back 255 64 130); lia. Defined.

(** ** [hex24_to_15] *)

(** X8. For six base-16 digits, in either case, [hex24_to_15] returns the
    15-bit colour of the three bytes they denote; the first character (the
    [#]) is skipped without being looked at, and whatever follows the sixth
    digit is not read. *)
Theorem hex24_to_15_digits (h r0 r1 g0 g1 b0 b1 : ascii) (rest : string) :
  is_hex r0 = true -> is_hex r1 = true ->
  is_hex g0 = true -> is_hex g1 = true ->
  is_hex b0 = true -> is_hex b1 = true ->
  hex24_to_15 (key_string h r0 r1 g0 g1 b0 b1 rest)
  = Ret (quantize (hex_byte r0 r1) (hex_byte g0 g1) (hex_byte b0 b1))
  /\ 0 <= hex_byte r0 r1 <= 255
  /\ 0 <= hex_byte g0 g1 <= 255
  /\ 0 <= hex_byte b0 b1 <= 255.
Proof.
  intros Hr0 Hr1 Hg0 Hg1 Hb0 Hb1.
  destruct (strtol16_hex_pair r0 r1 Hr0 Hr1) as [Er Hr].
  destruct (strtol16_hex_pair g0 g1 Hg0 Hg1) as [Eg Hg].
  destruct (strtol16_hex_pair b0 b1 Hb0 Hb1) as [Eb Hb].
  repeat split; try lia.
  unfold hex24_to_15, key_string, char_at.
  cbn [String.get of_option bind]. rewrite Er, Eg, Eb. reflexivity.
Qed.

Lemma hex24_to_15_digits_witness :
  hex24_to_15 "xFf00fF and more" = Ret (quantize 255 0 255).
Proof.
  refine (proj1 (hex24_to_15_digits "x" "F" "f" "0" "0" "f" "F" " and more"
                   _ _ _ _ _ _)); reflexivity.
Defined.

(** X9. [hex24_to_15] never refuses a key. It reads the characters 1 to 6 of
    the string: if the string has fewer than six characters the reads go
    past its terminating NUL; for a string of six characters or more it
    returns a colour, whatever the characters are. *)
Theorem hex24_to_15_reads (s : string) :
  ((String.length s < 6)%nat -> hex24_to_15 s = Undefined)
  /\ ((6 <= String.length s)%nat ->
      exists c : Z, hex24_to_15 s = Ret c /\ 0 <= c < 65536).
Proof.
  destruct s as [| h [| r0 [| r1 [| g0 [| g1 [| b0 [| b1 rest]]]]]]];
    cbn [String.length]; (split; [intros Hlen | intros Hlen]);
    try lia; try reflexivity;
    unfold hex24_to_15, char_at;
    cbn [String.get String.length Nat.eqb of_option bind];
    (eexists; split; [reflexivity |]);
    unfold to_ushort; apply Z.mod_pos_bound; lia.
Qed.

Lemma no_number_strtol16 (a b : ascii) :
  no_number a = true -> strtol16 (c_string2 a b) = 0.
Proof.
  unfold no_number, is_hex. intros Hno.
  repeat (apply andb_true_iff in Hno as [Hno ?]).
  repeat match goal with
         | H : negb _ = true |- _ => apply negb_true_iff in H
         end.
  destruct (hex_digit a) as [d |] eqn:Hd; [discriminate |].
  unfold c_string2, strtol16.
  destruct (Ascii.eqb a Ascii.zero); [reflexivity |].
  destruct (Ascii.eqb b Ascii.zero); cbn [strtol_skip];
    repeat match goal with
           | H : _ = false |- _ => rewrite H
           end;
    cbn [strtol_digits]; rewrite Hd; reflexivity.
Qed.

(** X10. A key that is not a number is not an error: if none of the three
    pairs of characters begins with a digit, white space or a sign, the key
    is read as black, the colour 0. *)
Theorem hex24_to_15_not_a_number (h r0 r1 g0 g1 b0 b1 : ascii) (rest : string) :
  no_number r0 = true -> no_number g0 = true -> no_number b0 = true ->
  hex24_to_15 (key_string h r0 r1 g0 g1 b0 b1 rest) = Ret 0.
Proof.
  intros Hr Hg Hb.
  unfold hex24_to_15, key_string, char_at.
  cbn [String.get of_option bind].
  rewrite !no_number_strtol16 by assumption. reflexivity.
Qed.

Lemma hex24_to_15_not_a_number_witness :
  hex24_to_15 "#zzyyxx" = Ret 0.
Proof.
  apply (hex24_to_15_not_a_number "#" "z" "z" "y" "y" "x" "x" "");
    reflexivity.
Defined.

Lemma hex24_to_15_reads_witness :
  hex24_to_15 "#ff00" = Undefined
  /\ exists c : Z, hex24_to_15 "#12345" = Ret c /\ 0 <= c < 65536.
Proof.
  split.
  - apply (proj1 (hex24_to_15_reads "#ff00")). cbn. lia.
  - apply (proj2 (hex24_to_15_reads "#12345")). cbn. lia.
Defined.

(** ** [next_byte] on other dimensions *)

(** Whole lines of a tile, up to the bottom of the image. *)
Lemma tiled_lines_upto (image : Image) (tileize : Z) (n : nat) :
  tileize <> 0 ->
  forall r c tr : Z,
    r + Z.of_nat n <= height image -> tr + Z.of_nat n < 8 ->
    c < width image ->
    steps image tileize
      {| cur_r := r; cur_c := c; cur_tr := tr; cur_tc := 0 |}
      (block r c (Z.of_nat n) 8)
      {| cur_r := r + Z.of_nat n; cur_c := c; cur_tr := tr + Z.of_nat n;
         cur_tc := 0 |}.
Proof.
  intros Ht. induction n as [| n IH]; intros r c tr Hr Htr Hc.
  - cbn. rewrite !Z.add_0_r. apply steps_nil.
  - rewrite block_cons by lia. eapply steps_app.
    + apply tiled_line; [exact Ht | lia ..].
    + replace (Z.of_nat (S n) - 1) with (Z.of_nat n) by lia.
      replace (r + Z.of_nat (S n)) with (r + 1 + Z.of_nat n) by lia.
      replace (tr + Z.of_nat (S n)) with (tr + 1 + Z.of_nat n) by lia.
      apply IH; lia.
Qed.

(** The tile rows from tile row [R] on, [n] of them, when the image may go
    on below them. *)
Lemma tiled_tile_rows_upto (image : Image) (tileize : Z) (n : nat) :
  tileize <> 0 ->
  forall R : Z,
    0 < width image -> width image mod 8 = 0 -> 0 <= R ->
    8 * (R + Z.of_nat n) <= height image ->
    steps image tileize
      {| cur_r := 8 * R; cur_c := 0; cur_tr := 0; cur_tc := 0 |}
      (seqZ R (Z.of_nat n) ≫= λ R,
         seqZ 0 (width image / 8) ≫= λ C, block (8 * R) (8 * C) 8 8)
      {| cur_r := 8 * (R + Z.of_nat n); cur_c := 0; cur_tr := 0; cur_tc := 0 |}.
Proof.
  intros Ht. induction n as [| n IH]; intros R HW HW8 HR HH.
  - rewrite Z.add_0_r. apply steps_nil.
  - rewrite (seqZ_cons R) by lia. rewrite bind_cons. eapply steps_app.
    + assert (HWd : width image = 8 * (width image / 8))
        by (apply Z.div_exact; lia).
      pose proof (tiled_tile_row image tileize Ht
                    (Z.to_nat (width image / 8 - 1)) (8 * R) 0) as Hrow.
      replace (Z.of_nat (S (Z.to_nat (width image / 8 - 1))))
        with (width image / 8) in Hrow by lia.
      apply Hrow; lia.
    + replace (Z.pred (Z.of_nat (S n))) with (Z.of_nat n) by lia.
      replace (8 * R + 8) with (8 * Z.succ R) by lia.
      replace (8 * (R + Z.of_nat (S n))) with (8 * (Z.succ R + Z.of_nat n))
        by lia.
      apply IH; lia.
Qed.

Lemma elem_of_tile_major_any (W H r c : Z) :
  (r, c) ∈ tile_major W H <-> 0 <= r < 8 * (H / 8) /\ 0 <= c < 8 * (W / 8).
Proof.
  unfold tile_major. rewrite list_elem_of_bind. split.
  - intros (R & Hin & HR). apply list_elem_of_bind in Hin.
    destruct Hin as (C & Hin & HC). apply elem_of_block in Hin.
    apply elem_of_seqZ in HR, HC. lia.
  - intros (Hr & Hc). exists (r / 8). split.
    + apply list_elem_of_bind. exists (c / 8). split.
      * apply elem_of_block.
        pose proof (Z.div_mod r 8 ltac:(lia)).
        pose proof (Z.mod_pos_bound r 8 ltac:(lia)).
        pose proof (Z.div_mod c 8 ltac:(lia)).
        pose proof (Z.mod_pos_bound c 8 ltac:(lia)). lia.
      * apply elem_of_seqZ. split; [apply Z.div_pos; lia |].
        rewrite Z.add_0_l. apply Z.div_lt_upper_bound; lia.
    + apply elem_of_seqZ. split; [apply Z.div_pos; lia |].
      rewrite Z.add_0_l. apply Z.div_lt_upper_bound; lia.
Qed.

(** X11. Tiled traversal when only the width is a multiple of 8. The whole
    tile rows are traversed tile by tile; of the [H mod 8] rows below them
    only the first eight columns are returned, row by row, and then [NULL]:
    the pixels of those rows from column 8 on are never visited. *)
Theorem tiled_ragged_height (image : Image) (tileize : Z) :
  tileize <> 0 ->
  0 < width image -> width image mod 8 = 0 -> 0 < height image ->
  (forall fuel : nat,
     (Z.to_nat (width image * height image) < fuel)%nat ->
     drain fuel image tileize cursor0
     = Some (tile_major (width image) (8 * (height image / 8))
             ++ block (8 * (height image / 8)) 0 (height image mod 8) 8,
             {| cur_r := height image; cur_c := 0;
                cur_tr := height image mod 8; cur_tc := 0 |}))
  /\ (forall r c : Z,
        (r, c) ∈ tile_major (width image) (8 * (height image / 8))
                 ++ block (8 * (height image / 8)) 0 (height image mod 8) 8
        <-> 0 <= r < height image /\ 0 <= c < width image
            /\ (r < 8 * (height image / 8) \/ c < 8)).
Proof.
  intros Ht HW HW8 HH.
  pose proof (Z.div_mod (height image) 8 ltac:(lia)) as Hdm.
  pose proof (Z.mod_pos_bound (height image) 8 ltac:(lia)) as Hm.
  assert (Ha : 0 <= height image / 8) by (apply Z.div_pos; lia).
  assert (HWd : width image = 8 * (width image / 8))
    by (apply Z.div_exact; lia).
  assert (Etop : 8 * (height image / 8) / 8 = height image / 8)
    by (rewrite Z.mul_comm; apply Z.div_mul; lia).
  split.
  - intros fuel Hfuel. apply steps_drain.
    + eapply steps_app.
      * pose proof (tiled_tile_rows_upto image tileize
                      (Z.to_nat (height image / 8)) Ht 0 HW HW8 ltac:(lia))
          as Hrows.
        rewrite Z2Nat.id, Z.add_0_l in Hrows by lia.
        unfold tile_major, cursor0. rewrite Etop. apply Hrows. lia.
      * pose proof (tiled_lines_upto image tileize
                      (Z.to_nat (height image mod 8)) Ht
                      (8 * (height image / 8)) 0 0) as Hlines.
        rewrite Z2Nat.id, Z.add_0_l in Hlines by lia.
        replace (8 * (height image / 8) + height image mod 8)
          with (height image) in Hlines by lia.
        apply Hlines; lia.
    + apply next_byte_end.
    + rewrite length_app, length_block. unfold tile_major.
      rewrite (length_bind_const _ (Z.to_nat (width image / 8) * 64)%nat).
      * rewrite length_seqZ, Etop. nia.
      * intros R. rewrite (length_bind_const _ 64%nat).
        -- rewrite length_seqZ. reflexivity.
        -- intros C. rewrite length_block. reflexivity.
  - intros r c. rewrite elem_of_app, elem_of_tile_major_any, elem_of_block.
    rewrite Etop. lia.
Qed.

Lemma tiled_ragged_height_witness :
  drain 200 (solid_image 16 12 [255; 0; 0]) 1 cursor0
  = Some (tile_major 16 8 ++ block 8 0 4 8,
          {| cur_r := 12; cur_c := 0; cur_tr := 4; cur_tc := 0 |}).
Proof.
  refine (proj1 (tiled_ragged_height (solid_image 16 12 [255; 0; 0]) 1
                   _ _ _ _) 200%nat _).
  - lia.
  - cbn. lia.
  - reflexivity.
  - cbn. lia.
  - cbn. lia.
Defined.

(** The loop of [png2gba] after the calls of [next_byte] that return [ps]. *)
Lemma png2gba_loop_steps (image : Image) (palette tileize : Z)
    (s s' : Cursor) (ps : list (Z * Z)) :
  steps image tileize s ps s' ->
  forall (fuel : nat) (st : Palette * Z * list out_item),
    png2gba_loop (length ps + fuel) image palette tileize s st
    = (let* st' := png2gba_pixels image palette ps st in
       png2gba_loop fuel image palette tileize s' st').
Proof.
  induction 1 as [s0 | s0 s1 s2 p ps0 Hstep _ IH]; intros fuel st;
    [reflexivity |].
  cbn [length Nat.add png2gba_loop png2gba_pixels]. rewrite Hstep.
  destruct (png2gba_pixel image palette p st) as [st' | | |]; cbn [bind];
    try reflexivity.
  apply IH.
Qed.

(** A row of the image has no pixel at a column from the width on. *)
Lemma read_pixel_right_of_row (image : Image) (r c : Z) :
  image_ok image -> width image <= c ->
  read_pixel image (r, c) = None.
Proof.
  intros (HW & HH & Hch & Hrows & Hrow) Hc. unfold read_pixel.
  destruct ((r <? 0) || (c * channels image <? 0)); [reflexivity |].
  destruct (rows image !! Z.to_nat r) as [row |] eqn:Erow; [| reflexivity].
  cbn [mbind option_bind].
  assert (Hlen : length row = Z.to_nat (width image * channels image)).
  { rewrite Forall_forall in Hrow. apply Hrow.
    apply list_elem_of_lookup_2 in Erow. exact Erow. }
  rewrite (lookup_ge_None_2 row (Z.to_nat (c * channels image)))
    by (rewrite Hlen; nia).
  reflexivity.
Qed.

(** X12. Tiled mode on an image less than 8 pixels wide reads outside the
    image: the calls of [next_byte] for the first line of the tile return
    the columns 0 to 7 of row 0, and the pixel at column [width] is read
    beyond the end of the row (unless, in palette mode, the palette is full
    before). *)
Theorem tiled_narrow_image (fuel : nat) (image : Image) (pal0 : Palette)
    (out0 : list out_item) (name : string) (palette tileize : Z) :
  image_ok image ->
  palette_ok pal0 ->
  tileize <> 0 ->
  width image < 8 ->
  (8 <= fuel)%nat ->
  steps image tileize cursor0 (pair 0 <$> seqZ 0 8)
    {| cur_r := 1; cur_c := 0; cur_tr := 1; cur_tc := 0 |}
  /\ read_pixel image (0, width image) = None
  /\ (png2gba fuel image pal0 cursor0 out0 name palette tileize = Undefined
      \/ (palette <> 0
          /\ png2gba fuel image pal0 cursor0 out0 name palette tileize
             = Exit TooManyColors)).
Proof.
  intros Himg Hok Ht HW8 Hfuel.
  pose proof Himg as (HW & HH & _).
  assert (Hline : steps image tileize cursor0 (pair 0 <$> seqZ 0 8)
                    {| cur_r := 1; cur_c := 0; cur_tr := 1; cur_tc := 0 |}).
  { unfold cursor0. apply (tiled_line image tileize Ht 0 0 0); lia. }
  assert (Hbad : read_pixel image (0, width image) = None)
    by (apply read_pixel_right_of_row; [exact Himg | lia]).
  split; [exact Hline |]. split; [exact Hbad |].
  (* the first [width] pixels, then the one outside *)
  assert (Hsplit : pair 0 <$> seqZ 0 8
                   = (pair 0 <$> seqZ 0 (width image))
                     ++ (0, width image)
                        :: (pair 0 <$> seqZ (width image + 1)
                                         (8 - width image - 1))).
  { replace 8 with (width image + (8 - width image)) at 1 by lia.
    rewrite seqZ_app, fmap_app by lia. f_equal.
    rewrite Z.add_0_l, (seqZ_cons (width image)) by lia.
    cbn [fmap list_fmap]. do 2 f_equal; lia. }
  unfold png2gba.
  replace fuel with (length (pair 0 <$> seqZ 0 8) + (fuel - 8))%nat
    by (rewrite length_fmap, length_seqZ; lia).
  rewrite (png2gba_loop_steps image palette tileize _ _ _ Hline).
  rewrite Hsplit.
  assert (Hpx : forall ps1 ps2 st,
             png2gba_pixels image palette (ps1 ++ ps2) st
             = (let* st' := png2gba_pixels image palette ps1 st in
                png2gba_pixels image palette ps2 st')).
  { clear. induction ps1 as [| p ps1 IH]; intros ps2 st; [reflexivity |].
    cbn [app png2gba_pixels].
    destruct (png2gba_pixel image palette p st); cbn [bind];
      [apply IH | reflexivity ..]. }
  rewrite Hpx.
  assert (Hread : Forall (fun pos => is_Some (read_pixel image pos))
                    (pair 0 <$> seqZ 0 (width image))).
  { apply Forall_forall. intros [r c] Hin.
    apply list_elem_of_fmap in Hin. destruct Hin as (c' & E & Hc).
    inversion E; subst. apply elem_of_seqZ in Hc.
    apply read_pixel_inside; [exact Himg | lia ..]. }
  destruct (png2gba_pixels_total image palette _ Hread pal0 0 out0 Hok)
    as [[[[pal1 ctl] out1] Hret] | [Hp Hexit]].
  - rewrite Hret. cbn [bind png2gba_pixels]. unfold png2gba_pixel.
    rewrite Hbad. left. reflexivity.
  - rewrite Hexit. right. split; [exact Hp | reflexivity].
Qed.

Lemma tiled_narrow_image_witness :
  png2gba 10 (solid_image 3 8 [255; 0; 0]) (new_palette 0) cursor0 [] "a" 0 1
  = Undefined.
Proof.
  destruct (tiled_narrow_image 10 (solid_image 3 8 [255; 0; 0]) (new_palette 0)
              [] "a" 0 1) as (_ & _ & [E | [Hne _]]).
  - unfold image_ok. cbn. repeat split; try lia.
    repeat constructor.
  - apply new_palette_ok.
  - lia.
  - cbn. lia.
  - lia.
  - exact E.
  - contradiction.
Defined.

(** Where [next_byte] has returned [NULL] the row counter is the height. *)
Lemma drain_end (image : Image) (tileize : Z) (fuel : nat) :
  forall (s s1 : Cursor) (ps : list (Z * Z)),
    drain fuel image tileize s = Some (ps, s1) -> cur_r s1 = height image.
Proof.
  induction fuel as [| fuel IH]; intros s s1 ps Hdrain; [discriminate |].
  cbn [drain] in Hdrain.
  destruct (next_byte image tileize s) as [[pos |] s'] eqn:Hstep.
  - destruct (drain fuel image tileize s') as [[ps' s''] |] eqn:Hrest;
      [| discriminate].
    inversion Hdrain; subst. exact (IH _ _ _ Hrest).
  - inversion Hdrain; subst. unfold next_byte in Hstep.
    destruct (Z.eqb_spec (cur_r s) (height image)) as [E | _].
    + inversion Hstep; subst. exact E.
    + destruct (tileize =? 0), (cur_c s + 1 >=? width image),
        (cur_tc s + 1 >=? 8), (cur_tr s + 1 >=? 8),
        (cur_c s + 1 - 8 + 8 >=? width image),
        (cur_c s + 1 - 8 >=? width image); discriminate Hstep.
Qed.

(** A call of [png2gba] that finds the variables of [next_byte] at the end
    of the image writes no pixel. *)
Lemma png2gba_at_end (fuel : nat) (image : Image) (pal : Palette)
    (s : Cursor) (out0 : list out_item) (name : string)
    (palette tileize : Z) :
  palette_ok pal ->
  cur_r s = height image ->
  png2gba (S fuel) image pal s out0 name palette tileize
  = Ret (out0 ++ postamble
         ++ (if palette =? 0 then []
             else table_head name
                  ++ lines 9 (table_entries (colors pal)) ++ postamble),
         pal, s).
Proof.
  intros Hok Hr. unfold png2gba. cbn [png2gba_loop].
  unfold next_byte. rewrite Hr, Z.eqb_refl. cbn [bind].
  destruct (palette =? 0); cbn [negb].
  - rewrite app_nil_r. reflexivity.
  - rewrite (palette_rows_spec (colors pal) (proj1 Hok)
               (S (Z.to_nat PALETTE_MAX)) 0 0)
      by (unfold PALETTE_MAX; lia).
    cbn [bind]. rewrite drop_0, lay_lines by lia.
    unfold postamble, table_head. rewrite <- !app_assoc. reflexivity.
Qed.

(** X13. The variables of [next_byte] are [static]: they keep the values a
    conversion leaves. After a call of [png2gba] that returned, a second
    call, on any image of the same height, writes no pixel at all: only the
    closing lines and, in palette mode, the colour table. *)
Theorem png2gba_second_run (fuel fuel' : nat) (image image' : Image)
    (pal0 pal1 : Palette) (s0 s1 : Cursor) (out0 out1 out2 : list out_item)
    (name name' : string) (palette tileize palette' tileize' : Z) :
  palette_ok pal0 ->
  png2gba fuel image pal0 s0 out0 name palette tileize = Ret (out1, pal1, s1) ->
  height image' = height image ->
  png2gba (S fuel') image' pal1 s1 out2 name' palette' tileize'
  = Ret (out2 ++ postamble
         ++ (if palette' =? 0 then []
             else table_head name'
                  ++ lines 9 (table_entries (colors pal1)) ++ postamble),
         pal1, s1).
Proof.
  intros Hok Hfirst Hh.
  destruct (png2gba_ret _ _ _ _ _ _ _ _ _ _ _ Hok Hfirst)
    as (ps & _ & _ & Hdrain & _ & _ & Hok1 & _).
  apply png2gba_at_end; [exact Hok1 |].
  rewrite Hh. exact (drain_end _ _ _ _ _ _ Hdrain).
Qed.

Lemma png2gba_second_run_witness :
  exists (out1 : list out_item) (pal1 : Palette) (s1 : Cursor),
    png2gba 10 (solid_image 2 2 [255; 0; 0]) (new_palette 0) cursor0 [] "a" 0 0
    = Ret (out1, pal1, s1)
    /\ png2gba 10 (solid_image 3 2 [0; 0; 255]) pal1 s1 [] "b" 0 0
       = Ret ([] ++ postamble ++ [], pal1, s1).
Proof.
  eexists _, _, _. split; [vm_compute; reflexivity |].
  eapply (png2gba_second_run 10 9 (solid_image 2 2 [255; 0; 0])
            (solid_image 3 2 [0; 0; 255]) (new_palette 0) _ cursor0 _
            [] _ [] "a" "b" 0 0 0 0).
  - apply new_palette_ok.
  - vm_compute. reflexivity.
  - reflexivity.
Defined.

(** ** [png2gba] as a whole *)

(** X14. In direct-colour mode a returning call of [png2gba] leaves the
    palette as it was and writes, eight to a line, the 15-bit colours of the
    pixels in the order [next_byte] returned them, and no colour table. *)
Theorem png2gba_direct (fuel : nat) (image : Image) (pal0 pal : Palette)
    (s0 s1 : Cursor) (out0 out : list out_item) (name : string)
    (tileize : Z) :
  palette_ok pal0 ->
  png2gba fuel image pal0 s0 out0 name 0 tileize = Ret (out, pal, s1) ->
  pal = pal0
  /\ exists (ps : list (Z * Z)) (cols : list Z),
       drain fuel image tileize s0 = Some (ps, s1)
       /\ Forall2 (fun pos col => pixel_color image pos = Some col) ps cols
       /\ out = out0 ++ lines 8 ((λ c, [Fmt_0x04X c; Str ", "]) <$> cols)
                ++ postamble.
Proof.
  intros Hok Hret.
  destruct (png2gba_ret _ _ _ _ _ _ _ _ _ _ _ Hok Hret)
    as (ps & cols & vals & Hdrain & Hcols & Hvals & _ & Hout).
  change (0 =? 0) with true in Hvals, Hout. destruct Hvals as [-> ->].
  split; [reflexivity |]. exists ps, cols.
  split; [exact Hdrain |]. split; [exact Hcols |].
  rewrite Hout, app_nil_r. reflexivity.
Qed.

Lemma png2gba_direct_witness :
  exists (ps : list (Z * Z)) (cols : list Z),
    drain 10 (solid_image 2 2 [255; 0; 0]) 0 cursor0
    = Some (ps, {| cur_r := 2; cur_c := 0; cur_tr := 0; cur_tc := 0 |})
    /\ [Str "    "; Fmt_0x04X 31; Str ", "; Fmt_0x04X 31; Str ", ";
        Fmt_0x04X 31; Str ", "; Fmt_0x04X 31; Str ", ";
        Str (nl +:+ "};" +:+ nl +:+ nl)]
       = [] ++ lines 8 ((λ c, [Fmt_0x04X c; Str ", "]) <$> cols) ++ postamble.
Proof.
  destruct (png2gba_direct 10 (solid_image 2 2 [255; 0; 0])
              (new_palette 0) (new_palette 0) cursor0
              {| cur_r := 2; cur_c := 0; cur_tr := 0; cur_tc := 0 |}
              []
              [Str "    "; Fmt_0x04X 31; Str ", "; Fmt_0x04X 31; Str ", ";
               Fmt_0x04X 31; Str ", "; Fmt_0x04X 31; Str ", ";
               Str (nl +:+ "};" +:+ nl +:+ nl)]
              "a" 0)
    as (_ & ps & cols & Hdrain & _ & Hout).
  - apply new_palette_ok.
  - reflexivity.
  - exists ps, cols. split; [exact Hdrain | exact Hout].
Defined.

Lemma png2gba_total_witness :
  (exists (out : list out_item) (pal : Palette) (s1 : Cursor),
     png2gba 10 (solid_image 2 2 [255; 0; 0]) keyed_palette cursor0 [] "a" 16 0
     = Ret (out, pal, s1))
  \/ (16 <> 0
      /\ png2gba 10 (solid_image 2 2 [255; 0; 0]) keyed_palette cursor0 [] "a"
           16 0
         = Exit TooManyColors).
Proof.
  apply (png2gba_total 10 (solid_image 2 2 [255; 0; 0]) keyed_palette [] "a"
           16 0).
  - unfold image_ok. cbn. repeat split; try lia. repeat constructor.
  - unfold palette_ok, keyed_palette, PALETTE_MAX. cbn. repeat split; lia.
  - left. reflexivity.
  - cbn. lia.
Defined.

(** ** [main] *)

Lemma main_direct_mode_exits_witness :
  main 10 (example_args 0 0) (solid_image 2 2 [255; 0; 0])
  = Exit TooManyColors.
Proof.
  apply (main_direct_mode_exits 10 (solid_image 2 2 [255; 0; 0])
           (example_args 0 0) "a.png" "a");
    reflexivity.
Defined.

Lemma main_capacity_16_colorkey_witness :
  exists (out : list out_item) (pal : Palette) (s : Cursor),
    main 10 (example_args 16 0) (solid_image 2 2 [255; 0; 255])
    = Ret (out, pal, s)
    /\ colors pal !! 0%nat = Some 31775.
Proof.
  eexists _, _, _. split; [vm_compute; reflexivity |].
  epose proof (main_capacity_16_colorkey 10 (solid_image 2 2 [255; 0; 255])
                 (example_args 16 0) _ _ _) as Hkey.
  destruct Hkey as (c & ps & idxs & out0 & rest & Ec & H0 & _).
  - reflexivity.
  - reflexivity.
  - vm_compute. reflexivity.
  - vm_compute in Ec. inversion Ec; subst c. exact H0.
Defined.



(** ** The name of the input file *)

Lemma substring_all (s : string) :
  forall L : nat, (String.length s <= L)%nat -> String.substring 0 L s = s.
Proof.
  induction s as [| a s IH]; intros L HL.
  - destruct L; reflexivity.
  - destruct L as [| L]; [cbn in HL; lia |].
    cbn [String.substring]. f_equal. apply IH. cbn in HL. lia.
Qed.

Lemma substring_head_tail (s : string) :
  forall k L : nat,
    (String.length s <= L)%nat ->
    s = String.substring 0 k s +:+ String.substring k L s.
Proof.
  induction s as [| a s IH]; intros k L HL.
  - destruct k, L; reflexivity.
  - destruct k as [| k].
    + transitivity (String.substring 0 L (String a s));
        [symmetry; apply substring_all; exact HL | reflexivity].
    + cbn [String.substring]. rewrite append_cons. f_equal.
      apply IH. cbn in HL. lia.
Qed.

(** A string is what is in front of position [m], the [k] characters from
    there, and the rest. *)
Lemma substring_three (s : string) :
  forall m k L : nat,
    (String.length s <= L)%nat ->
    s = String.substring 0 m s
        +:+ (String.substring m k s +:+ String.substring (m + k) L s).
Proof.
  induction s as [| a s IH]; intros m k L HL.
  - destruct m, k, L; reflexivity.
  - destruct m as [| m].
    + transitivity (String.substring 0 k (String a s)
                    +:+ String.substring k L (String a s));
        [apply substring_head_tail; exact HL | reflexivity].
    + cbn [String.substring Nat.add]. rewrite append_cons. f_equal.
      apply IH. cbn in HL. lia.
Qed.

Lemma substring_after (a s : string) :
  forall k : nat,
    String.substring (String.length a) k (a +:+ s) = String.substring 0 k s.
Proof.
  induction a as [| c a IH]; intros k; [reflexivity |].
  rewrite append_cons. cbn [String.length String.substring]. apply IH.
Qed.

Lemma substring_0_length (a s : string) :
  String.substring 0 (String.length a) (a +:+ s) = a.
Proof.
  induction a as [| c a IH].
  - destruct s; reflexivity.
  - rewrite append_cons. cbn [String.length String.substring]. f_equal.
    exact IH.
Qed.

(** X19. The name of the input file is cut at its first [.png], wherever
    that is: [main] accepts every name in which [.png] occurs, at the end or
    not, keeps what is in front of the first occurrence, and refuses
    exactly the names in which [.png] does not occur. *)
Theorem chop_png_first (input : string) :
  (forall name : string,
     chop_png input = Some name ->
     (exists rest : string, input = name +:+ (".png" +:+ rest))
     /\ (forall a b : string,
           input = a +:+ (".png" +:+ b) ->
           (String.length name <= String.length a)%nat))
  /\ (chop_png input = None <->
      forall a b : string, input <> a +:+ (".png" +:+ b)).
Proof.
  assert (Hocc : forall a b : string,
             String.substring (String.length a) 4 (a +:+ (".png" +:+ b))
             = ".png"%string).
  { intros a b. rewrite substring_after. destruct b; reflexivity. }
  unfold chop_png. destruct (String.index 0 ".png" input) as [m |] eqn:Hidx.
  - split.
    + intros name Hname. inversion Hname; subst name; clear Hname. split.
      * exists (String.substring (m + 4) (String.length input) input).
        pose proof (index_correct1 _ _ _ _ Hidx) as Hsub.
        cbn [String.length] in Hsub.
        rewrite <- Hsub. apply substring_three. lia.
      * intros a b Hinput.
        destruct (Nat.le_gt_cases m (String.length a)) as [Hle | Hgt].
        -- pose proof (substring_three input m 0 (String.length input)
                         ltac:(lia)) as Hcut.
           assert (Hlen : (String.length (String.substring 0 m input) <= m)%nat).
           { clear. revert m. induction input as [| c s IH]; intros m.
             - destruct m; cbn; lia.
             - destruct m as [| m]; [cbn; lia |].
               cbn [String.substring String.length]. specialize (IH m). lia. }
           lia.
        -- exfalso.
           apply (index_correct2 _ _ _ _ Hidx (String.length a));
             [lia | exact Hgt |].
           rewrite Hinput. apply Hocc.
    + split; [discriminate |]. intros Hno. exfalso.
      pose proof (index_correct1 _ _ _ _ Hidx) as Hsub.
      cbn [String.length] in Hsub.
      apply (Hno (String.substring 0 m input)
               (String.substring (m + 4) (String.length input) input)).
      rewrite <- Hsub. apply substring_three. lia.
  - split; [discriminate |]. split; [| reflexivity].
    intros _ a b Hinput.
    apply (index_correct3 _ (String.length a) _ _ Hidx);
      [discriminate | lia |].
    rewrite Hinput. apply Hocc.
Qed.

Lemma chop_png_first_witness :
  chop_png "pics/a.png.old.png" = Some "pics/a"%string
  /\ exists rest : string,
       "pics/a.png.old.png"%string = "pics/a" +:+ (".png" +:+ rest).
Proof.
  split; [reflexivity |].
  apply (proj1 (chop_png_first "pics/a.png.old.png") "pics/a"). reflexivity.
Defined.

(** ** [extractFileName] *)

Lemma strrchr_app (a t : string) (c : ascii) :
  strrchr (a +:+ t) c
  = match strrchr t c with
    | Some k => Some (String.length a + k)%nat
    | None => strrchr a c
    end.
Proof.
  induction a as [|x a IH].
  - change ("" +:+ t) with t. destruct (strrchr t c); reflexivity.
  - rewrite append_cons. cbn [strrchr String.length]. rewrite IH.
    destruct (strrchr t c); reflexivity.
Qed.

Lemma strrchr_split (s : string) (c : ascii) (n : nat) :
  strrchr s c = Some n ->
  exists a b : string,
    s = a +:+ String c b /\ String.length a = n /\ strrchr b c = None.
Proof.
  revert n. induction s as [|x s IH]; intros n Hs; [discriminate|].
  cbn [strrchr] in Hs. destruct (strrchr s c) as [k|] eqn:Hk.
  - injection Hs as <-. destruct (IH k eq_refl) as (a & b & -> & Hlen & Hb).
    exists (String x a), b. rewrite append_cons. cbn [String.length].
    split; [reflexivity|]. split; [congruence | exact Hb].
  - destruct (Ascii.eqb x c) eqn:Hx; [|discriminate]. injection Hs as <-.
    apply Ascii.eqb_eq in Hx. subst x.
    exists EmptyString, s. split; [reflexivity|]. split; [reflexivity | exact Hk].
Qed.

Lemma strrchr_cons_None (x : ascii) (s : string) (c : ascii) :
  strrchr (String x s) c = None -> strrchr s c = None.
Proof.
  cbn [strrchr]. destruct (strrchr s c); [discriminate | reflexivity].
Qed.

Lemma string_from_app (a t : string) :
  string_from (String.length a) (a +:+ t) = t.
Proof.
  induction a as [|x a IH]; [destruct t; reflexivity|].
  rewrite append_cons. exact IH.
Qed.

Lemma string_from_separator (a b : string) (c : ascii) :
  string_from (S (String.length a)) (a +:+ String c b) = b.
Proof.
  induction a as [|x a IH]; [reflexivity|].
  rewrite append_cons. exact IH.
Qed.

(** The part after the last [c] has no [d] either, when the last [d] of the
    string is not behind the last [c]. *)
Lemma strrchr_other (a b : string) (c d : ascii) :
  strrchr b c = None ->
  match strrchr (a +:+ String c b) d with
  | Some n => (n <= String.length a)%nat
  | None => True
  end ->
  strrchr b d = None.
Proof.
  intros Hb Hd. rewrite strrchr_app in Hd. cbn [strrchr] in Hd.
  destruct (strrchr b d) as [k|]; [lia | reflexivity].
Qed.

(** X20. [extractFileName] returns the part of the path behind its last
    slash or backslash: the result holds neither character, the path is a
    directory part followed by the result, the directory part is empty or
    ends in one of the two characters, and a path without them is returned
    whole. *)
Theorem extractFileName_last_component (path : string) :
  strrchr (extractFileName path) slash = None
  /\ strrchr (extractFileName path) backslash = None
  /\ (exists dir : string,
        path = dir +:+ extractFileName path
        /\ (dir = EmptyString
            \/ exists (d : string) (sep : ascii),
                 dir = d +:+ String sep EmptyString
                 /\ (sep = slash \/ sep = backslash)))
  /\ (strrchr path slash = None -> strrchr path backslash = None ->
      extractFileName path = path).
Proof.
  unfold extractFileName.
  destruct (strrchr path slash) as [m|] eqn:Hs;
    destruct (strrchr path backslash) as [n|] eqn:Hb; cbn [ptr_gt].
  - destruct (Nat.ltb_spec n m) as [Hlt|Hge].
    + destruct (strrchr_split _ _ _ Hs) as (a & b & -> & Hlen & Hnone).
      subst m. rewrite string_from_separator.
      split; [exact Hnone|]. split.
      { apply (strrchr_other a b slash backslash Hnone). rewrite Hb. lia. }
      split; [|intros; discriminate].
      exists (a +:+ String slash EmptyString). split.
      { rewrite append_assoc. reflexivity. }
      right. exists a, slash. split; [reflexivity | left; reflexivity].
    + destruct (strrchr_split _ _ _ Hb) as (a & b & -> & Hlen & Hnone).
      subst n. rewrite string_from_separator.
      split.
      { apply (strrchr_other a b backslash slash Hnone). rewrite Hs. lia. }
      split; [exact Hnone|].
      split; [|intros; discriminate].
      exists (a +:+ String backslash EmptyString). split.
      { rewrite append_assoc. reflexivity. }
      right. exists a, backslash. split; [reflexivity | right; reflexivity].
  - destruct (strrchr_split _ _ _ Hs) as (a & b & -> & Hlen & Hnone).
    subst m. rewrite string_from_separator.
    split; [exact Hnone|]. split.
    { apply (strrchr_other a b slash backslash Hnone). rewrite Hb. exact I. }
    split; [|intros; discriminate].
    exists (a +:+ String slash EmptyString). split.
    { rewrite append_assoc. reflexivity. }
    right. exists a, slash. split; [reflexivity | left; reflexivity].
  - destruct (strrchr_split _ _ _ Hb) as (a & b & -> & Hlen & Hnone).
    subst n. rewrite string_from_separator.
    split.
    { apply (strrchr_other a b backslash slash Hnone). rewrite Hs. exact I. }
    split; [exact Hnone|].
    split; [|intros; discriminate].
    exists (a +:+ String backslash EmptyString). split.
    { rewrite append_assoc. reflexivity. }
    right. exists a, backslash. split; [reflexivity | right; reflexivity].
  - split; [exact Hs|]. split; [exact Hb|]. split; [|reflexivity].
    exists EmptyString. split; [reflexivity | left; reflexivity].
Qed.

Lemma extractFileName_last_component_witness :
  extractFileName "img" = "img"
  /\ strrchr (extractFileName "gfx/sprites/hero") slash = None.
Proof.
  split.
  - apply (proj2 (proj2 (proj2 (extractFileName_last_component "img")))).
    + reflexivity.
    + reflexivity.
  - exact (proj1 (extractFileName_last_component "gfx/sprites/hero")).
Defined.

(** ** The option loop of [main] *)

Lemma option_loop_app (pre post : list (ascii * option string))
    (args : Arguments) :
  option_loop (pre ++ post) args
  = match option_loop pre args with
    | Parsed args' => option_loop post args'
    | Help => Help
    | NullString => NullString
    end.
Proof.
  revert args. induction pre as [|[opt optarg] pre IH]; intros args.
  - reflexivity.
  - cbn [app option_loop].
    destruct (option_case args opt optarg); [apply IH | reflexivity ..].
Qed.

(** One pass of the [switch] changes the field of its option only. *)
Lemma option_case_parsed (args args' : Arguments) (opt : ascii)
    (optarg : option string) :
  option_case args opt optarg = Parsed args' ->
  (opt <> "i"%char -> input_file_name args' = input_file_name args)
  /\ (opt <> "p"%char -> palette args' = palette args)
  /\ (opt = "i"%char -> input_file_name args' = optarg)
  /\ (opt = "p"%char ->
      exists v : string,
        optarg = Some v
        /\ palette args' = if atoi v =? 0 then PALETTE_MAX else atoi v).
Proof.
  unfold option_case. intros Hcase.
  destruct (Ascii.eqb_spec opt "p") as [-> | Np].
  { destruct optarg as [v|]; [|discriminate]. injection Hcase as <-.
    cbn [input_file_name palette].
    split; [reflexivity|]. split; [congruence|]. split; [discriminate|].
    intros _. exists v. split; [reflexivity|].
    destruct (atoi v =? 0); reflexivity. }
  destruct (Ascii.eqb_spec opt "t") as [-> | Nt].
  { injection Hcase as <-. cbn [input_file_name palette].
    split; [reflexivity|]. split; [reflexivity|].
    split; discriminate. }
  destruct (Ascii.eqb_spec opt "o") as [-> | No].
  { injection Hcase as <-. cbn [input_file_name palette].
    split; [reflexivity|]. split; [reflexivity|].
    split; discriminate. }
  destruct (Ascii.eqb_spec opt "c") as [-> | Nc].
  { destruct optarg as [v|]; [|discriminate]. injection Hcase as <-.
    cbn [input_file_name palette].
    split; [reflexivity|]. split; [reflexivity|].
    split; discriminate. }
  destruct (Ascii.eqb_spec opt "i") as [-> | Ni].
  { injection Hcase as <-. cbn [input_file_name palette].
    split; [congruence|]. split; [reflexivity|].
    split; [reflexivity | discriminate]. }
  destruct (Ascii.eqb_spec opt "h") as [-> | Nh]; [discriminate|].
  injection Hcase as <-.
  split; [reflexivity|]. split; [reflexivity|]. split; congruence.
Qed.

Lemma option_loop_frame (opts : list (ascii * option string))
    (args args' : Arguments) :
  option_loop opts args = Parsed args' ->
  ((forall (opt : ascii) (optarg : option string),
      (opt, optarg) ∈ opts -> opt <> "i"%char) ->
   input_file_name args' = input_file_name args)
  /\ ((forall (opt : ascii) (optarg : option string),
         (opt, optarg) ∈ opts -> opt <> "p"%char) ->
      palette args' = palette args).
Proof.
  revert args. induction opts as [|[opt optarg] opts IH]; intros args Hloop.
  - injection Hloop as <-. split; reflexivity.
  - cbn [option_loop] in Hloop.
    destruct (option_case args opt optarg) as [args1| |] eqn:Hcase;
      try discriminate.
    destruct (option_case_parsed _ _ _ _ Hcase) as (Hi & Hp & _ & _).
    destruct (IH _ Hloop) as [IHi IHp].
    split; intros Hno.
    + rewrite IHi. { apply Hi. apply (Hno opt optarg). left. }
      intros o a Hin. apply (Hno o a). right. exact Hin.
    + rewrite IHp. { apply Hp. apply (Hno opt optarg). left. }
      intros o a Hin. apply (Hno o a). right. exact Hin.
Qed.



(** X21. A command line without [-i] never reaches the conversion: whatever
    the other options are, when the option loop ends [main] exits with
    "No Input Specified". *)
Theorem main_without_input (fuel : nat) (opts : list (ascii * option string))
    (args : Arguments) (image : Image) :
  (forall (opt : ascii) (optarg : option string),
     (opt, optarg) ∈ opts -> opt <> "i"%char) ->
  option_loop opts default_args = Parsed args ->
  main fuel args image = Exit NoInputSpecified.
Proof.
  intros Hno Hloop.
  destruct (option_loop_frame _ _ _ Hloop) as [Hinput _].
  unfold main. rewrite (Hinput Hno). reflexivity.
Qed.

Lemma main_without_input_witness :
  option_loop [("t"%char, None); ("p"%char, Some "16"%string)] default_args
  = Parsed {| palette := 16; tileize := 1; colorkey := "#ff00ff";
              output_file_name := None; input_file_name := None |}
  /\ main 10 {| palette := 16; tileize := 1; colorkey := "#ff00ff";
                output_file_name := None; input_file_name := None |}
       (solid_image 2 2 [255; 0; 0])
     = Exit NoInputSpecified.
Proof.
  split; [reflexivity |].
  apply (main_without_input 10
           [("t"%char, None); ("p"%char, Some "16"%string)]).
  - intros opt optarg Hin.
    apply list_elem_of_In in Hin. cbn in Hin.
    destruct Hin as [E | [E | []]]; injection E as <- _; discriminate.
  - reflexivity.
Defined.

(** X22. The last [-p] option decides the palette size: it is the number
    [atoi] reads from its value, and 256 when that number is 0, so that no
    value of [-p] selects the direct-colour mode. *)
Theorem option_loop_last_palette (pre post : list (ascii * option string))
    (v : string) (args0 args : Arguments) :
  (forall (opt : ascii) (optarg : option string),
     (opt, optarg) ∈ post -> opt <> "p"%char) ->
  option_loop (pre ++ ("p"%char, Some v) :: post) args0 = Parsed args ->
  palette args = (if atoi v =? 0 then PALETTE_MAX else atoi v)
  /\ palette args <> 0.
Proof.
  intros Hno Hloop. rewrite option_loop_app in Hloop.
  destruct (option_loop pre args0) as [args1| |]; try discriminate.
  cbn [option_loop] in Hloop.
  destruct (option_case args1 "p" (Some v)) as [args2| |] eqn:Hcase;
    try discriminate.
  destruct (option_case_parsed _ _ _ _ Hcase) as (_ & _ & _ & Hp).
  destruct (Hp eq_refl) as (v' & Ev & Hv). injection Ev as <-.
  destruct (option_loop_frame _ _ _ Hloop) as [_ Hpal].
  rewrite (Hpal Hno), Hv. split; [reflexivity |].
  destruct (Z.eqb_spec (atoi v) 0); [discriminate | assumption].
Qed.

Lemma option_loop_last_palette_witness :
  option_loop ([("p"%char, Some "16"%string)]
               ++ ("p"%char, Some "0"%string) :: [("t"%char, None)])
    default_args
  = Parsed {| palette := 256; tileize := 1; colorkey := "#ff00ff";
              output_file_name := None; input_file_name := None |}
  /\ palette {| palette := 256; tileize := 1; colorkey := "#ff00ff";
                output_file_name := None; input_file_name := None |}
     <> 0.
Proof.
  split; [reflexivity |].
  refine (proj2 (option_loop_last_palette [("p"%char, Some "16"%string)]
                   [("t"%char, None)] "0" default_args _ _ _)).
  - intros opt optarg Hin.
    apply list_elem_of_In in Hin. cbn in Hin.
    destruct Hin as [E | []]; injection E as <- _; discriminate.
  - reflexivity.
Defined.


(** X24. A [-p] without a value attached to it, for which [getopt] leaves
    [optarg] null, makes the option loop hand a null pointer to [atoi],
    whatever options follow it. *)
Theorem option_loop_p_without_value (pre post : list (ascii * option string))
    (args0 args1 : Arguments) :
  option_loop pre args0 = Parsed args1 ->
  option_loop (pre ++ ("p"%char, None) :: post) args0 = NullString.
Proof.
  intros Hpre. rewrite option_loop_app, Hpre. reflexivity.
Qed.

Lemma option_loop_p_without_value_witness :
  option_loop ([("i"%char, Some "a.png"%string)]
               ++ ("p"%char, None) :: [("t"%char, None)]) default_args
  = NullString.
Proof.
  apply (option_loop_p_without_value [("i"%char, Some "a.png"%string)]
           [("t"%char, None)] default_args
           {| palette := 0; tileize := 0; colorkey := "#ff00ff";
              output_file_name := None;
              input_file_name := Some "a.png"%string |}).
  reflexivity.
Defined.

